(** * The bounded repository sampler

    A shallow embedding of [walk], [isBinaryByExt], [readSample] and
    [summarizeRepo] (the command-line part of the sources, lines 127 to 220),
    with the JavaScript string primitives they use, and the properties of the
    sampler stated over it.

    - A JavaScript string is the list of its UTF-16 code units.
    - [maxFiles] and [maxChars] are JavaScript numbers holding integers: [Z].
    - The file system is a record of three partial operations; [None] is a
      thrown exception, which the source catches at each call.
    - The [while] loop of [walk] is bounded by fuel, one unit per iteration. *)

From Stdlib Require Import ZArith List String Ascii Lia.
From stdpp Require Import base decidable countable list gmap.
Import ListNotations.
Open Scope Z_scope.

(** ** JavaScript strings *)

Module JS.

(** UTF-16 code units. *)
Abbreviation jsstring := (list N).

(** An ASCII literal of the source. *)
Definition lit (s : string) : jsstring :=
  map N_of_ascii (list_ascii_of_string s).

(** [s.length] *)
Definition length (s : jsstring) : Z := Z.of_nat (List.length s).

(** An index argument of [slice], made relative to the end when negative
    and clamped to [0 .. len]. *)
Definition clamp (len i : Z) : Z :=
  if i <? 0 then Z.max (len + i) 0 else Z.min i len.

(** [s.slice(start)] and [s.slice(start, end)] *)
Definition slice (s : jsstring) (start : Z) (end_ : option Z) : jsstring :=
  let len := length s in
  let from := clamp len start in
  let to := match end_ with Some e => clamp len e | None => len end in
  take (Z.to_nat (to - from)) (drop (Z.to_nat from) s).

(** [s.lastIndexOf(c)] for a one-unit search string: the scan keeps the
    index of the latest match, starting from -1. *)
Fixpoint lastIndexOf_from (c : N) (s : jsstring) (i found : Z) : Z :=
  match s with
  | [] => found
  | x :: s' => lastIndexOf_from c s' (i + 1) (if N.eqb x c then i else found)
  end.

Definition lastIndexOf (s : jsstring) (c : N) : Z :=
  lastIndexOf_from c s 0 (-1).

(** [s.startsWith(p)] *)
Fixpoint startsWith (s p : jsstring) {struct p} : bool :=
  match p, s with
  | [], _ => true
  | _ :: _, [] => false
  | c :: p', x :: s' => N.eqb x c && startsWith s' p'
  end.

(** [s.endsWith(p)] *)
Definition endsWith (s p : jsstring) : bool :=
  startsWith (rev s) (rev p).

(** [s.toLowerCase()], unit by unit, as far as a comparison with ASCII
    strings can tell: the ASCII capitals and the Kelvin sign U+212A are the
    only code units whose lower case is made of ASCII letters. The lower case
    of any other unit holds a unit outside ASCII, as the unit itself does
    here. *)
Definition lower_unit (u : N) : N :=
  if (65 <=? u)%N && (u <=? 90)%N then (u + 32)%N
  else if (u =? 8490)%N then 107%N
  else u.

Definition toLowerCase (s : jsstring) : jsstring := map lower_unit s.

(** [parts.join(sep)] *)
Fixpoint join (sep : jsstring) (parts : list jsstring) : jsstring :=
  match parts with
  | [] => []
  | [p] => p
  | p :: rest => p ++ sep ++ join sep rest
  end.

(** [s.split(sep)] for a one-unit separator. *)
Fixpoint split_on (sep : N) (s : jsstring) : list jsstring :=
  match s with
  | [] => [[]]
  | c :: s' =>
      if N.eqb c sep then [] :: split_on sep s'
      else
        match split_on sep s' with
        | seg :: segs => (c :: seg) :: segs
        | [] => [[c]]
        end
  end.

(** Code points of a string: a high surrogate followed by a low surrogate
    is one supplementary code point, any other unit stands for itself. *)
Definition is_high (u : N) : bool := (55296 <=? u)%N && (u <=? 56319)%N.
Definition is_low (u : N) : bool := (56320 <=? u)%N && (u <=? 57343)%N.

Fixpoint codepoints (s : jsstring) : list N :=
  match s with
  | [] => []
  | h :: s' =>
      match s' with
      | l :: s'' =>
          if is_high h && is_low l
          then (65536 + (h - 55296) * 1024 + (l - 56320))%N :: codepoints s''
          else h :: codepoints s'
      | [] => [h]
      end
  end.

End JS.

Import JS.

(** ** The runtime: path.join and the file system *)

(** The code units of the two separators the source tests for. *)
Definition slash : N := 47.
Definition backslash : N := 92.
Definition dot : N := 46.
Definition newline : N := 10.

(** [join] of the runtime's path module, in its POSIX flavour: the
    arguments that are not empty are put together with a separator and the
    result is normalised. Normalisation goes through the segments of the
    path, from left to right, and keeps them on a stack (last kept first): an
    empty segment or a single dot is dropped; two dots remove the segment
    kept last, unless there is none or it is itself two dots, in which case
    they are kept when the path is relative and dropped when it is absolute;
    any other segment is kept. *)
Definition normalize_step (allowAboveRoot : bool) (res : list jsstring)
    (seg : jsstring) : list jsstring :=
  if bool_decide (seg = []) || bool_decide (seg = [dot]) then res
  else if bool_decide (seg = [dot; dot]) then
    match res with
    | top :: res' =>
        if bool_decide (top = [dot; dot])
        then (if allowAboveRoot then seg :: res else res)
        else res'
    | [] => if allowAboveRoot then [seg] else []
    end
  else seg :: res.

Definition normalize (path : jsstring) : jsstring :=
  match path with
  | [] => [dot]
  | c :: _ =>
      let isAbsolute := N.eqb c slash in
      let trailingSeparator := endsWith path [slash] in
      let res :=
        JS.join [slash]
          (rev (foldl (normalize_step (negb isAbsolute)) []
                  (split_on slash path))) in
      match res with
      | [] =>
          if isAbsolute then [slash]
          else if trailingSeparator then [dot; slash] else [dot]
      | _ :: _ =>
          (if isAbsolute then [slash] else [])
          ++ res ++ (if trailingSeparator then [slash] else [])
      end
  end.

Definition join (current name : jsstring) : jsstring :=
  match current, name with
  | [], [] => [dot]
  | [], _ :: _ => normalize name
  | _ :: _, [] => normalize current
  | _ :: _, _ :: _ => normalize (current ++ [slash] ++ name)
  end.

(** What the source observes of the object returned by [statSync]. *)
Record Stats := { isDirectory : bool; isFile : bool }.

(** The file system as the source sees it. [None] stands for a thrown
    exception. [readText p] is [readFileSync(p).toString("utf8")], the
    decoded content; it is [None] when the [try] block of [readSample]
    throws. *)
Record FS := {
  readdir : jsstring -> option (list jsstring);
  statSync : jsstring -> option Stats;
  readText : jsstring -> option jsstring
}.

(** ** Constants of src/cli.ts *)

Definition DEFAULT_IGNORES : gset jsstring :=
  {[ lit "node_modules"; lit ".git"; lit "dist"; lit "build"; lit ".next";
     lit ".turbo"; lit "coverage"; lit ".venv"; lit "venv"; lit "out" ]}.

Definition BINARY_EXT : gset jsstring :=
  {[ lit ".png"; lit ".jpg"; lit ".jpeg"; lit ".gif"; lit ".webp";
     lit ".ico"; lit ".pdf"; lit ".zip"; lit ".gz"; lit ".tar"; lit ".rar";
     lit ".7z"; lit ".exe"; lit ".dll"; lit ".bin" ]}.

(** [set.has(x)] *)
Definition has (set : gset jsstring) (x : jsstring) : bool :=
  bool_decide (x ∈ set).

(** ** walk *)

(** What [walk] does to the outside: it lists a directory, or it yields a
    file path to its consumer. *)
Inductive event :=
| Listed (current : jsstring)
| Yielded (full : jsstring).

Definition yields (evs : list event) : list jsstring :=
  omap (fun e => match e with Yielded f => Some f | Listed _ => None end) evs.

Definition listings (evs : list event) : list jsstring :=
  omap (fun e => match e with Listed d => Some d | Yielded _ => None end) evs.

Section Walk.
Context (fs : FS) (maxFiles : Z).

(** The [for (const name of dirents)] loop of [walk]: the stack and the
    count after it, and the paths it yielded, in order. The stack is a list
    whose head is the top ([push] conses, [pop] takes the head). *)
Fixpoint walk_dirents (current : jsstring) (dirents : list jsstring)
    (stack : list jsstring) (count : Z)
  : list jsstring * Z * list jsstring :=
  match dirents with
  | [] => (stack, count, [])
  | name :: rest =>
      if count >=? maxFiles then (stack, count, [])
      else if has DEFAULT_IGNORES name then walk_dirents current rest stack count
      else
        let full := join current name in
        match statSync fs full with
        | None => walk_dirents current rest stack count
        | Some s =>
            if isDirectory s then walk_dirents current rest (full :: stack) count
            else if isFile s then
              let '(stack', count', ys) :=
                walk_dirents current rest stack (count + 1) in
              (stack', count', full :: ys)
            else walk_dirents current rest stack count
        end
  end.

(** The [while (stack.length > 0 && count < opts.maxFiles)] loop. [fuel]
    bounds the number of iterations; [None] means it ran out. *)
Fixpoint walk_loop (fuel : nat) (stack : list jsstring) (count : Z)
  : option (list event) :=
  match stack with
  | [] => Some []
  | current :: stack' =>
      if count <? maxFiles then
        match fuel with
        | O => None
        | S fuel' =>
            match readdir fs current with
            | None =>
                evs ← walk_loop fuel' stack' count;
                Some (Listed current :: evs)
            | Some dirents =>
                let '(stack'', count', ys) :=
                  walk_dirents current dirents stack' count in
                evs ← walk_loop fuel' stack'' count';
                Some (Listed current :: map Yielded ys ++ evs)
            end
        end
      else Some []
  end.

Definition walk_events (fuel : nat) (dir : jsstring) : option (list event) :=
  walk_loop fuel [dir] 0.

(** The sequence of paths [walk(dir, { maxFiles })] yields. *)
Definition walk (fuel : nat) (dir : jsstring) : option (list jsstring) :=
  yields <$> walk_events fuel dir.

End Walk.

(** ** isBinaryByExt and readSample *)

Definition isBinaryByExt (path : jsstring) : bool :=
  let i := lastIndexOf path dot in
  if i <? 0 then false
  else has BINARY_EXT (toLowerCase (slice path i None)).

Definition readSample (fs : FS) (file : jsstring) (maxChars : Z)
  : option jsstring :=
  if isBinaryByExt file then None
  else
    match readText fs file with
    | Some text => Some (slice text 0 (Some maxChars))
    | None => None
    end.

(** ** summarizeRepo *)

Definition header (dir : jsstring) : jsstring := lit "Root: " ++ dir.

Definition sentinel : jsstring := lit "No readable source files found.".

(** [rel], line 215. *)
Definition relativePath (dir file : jsstring) : jsstring :=
  if startsWith file dir then
    slice file
      (JS.length dir
       + (if endsWith dir [slash] || endsWith dir [backslash] then 0 else 1))
      None
  else file.

(** The block pushed for an included file, line 216. *)
Definition block (rel sample : jsstring) : jsstring :=
  [newline] ++ lit "--- BEGIN FILE: " ++ rel ++ lit " ---" ++ [newline]
  ++ sample ++ [newline] ++ lit "--- END FILE: " ++ rel ++ lit " ---".

Section Summarize.
Context (fs : FS) (dir : jsstring) (maxFiles maxChars : Z).

(** The [for await] loop over the yielded files: [parts] and [included]
    after it. A [break] leaves the rest of the sequence unread. *)
Fixpoint summarize_loop (files : list jsstring)
    (parts : list jsstring) (included : Z) : list jsstring * Z :=
  match files with
  | [] => (parts, included)
  | file :: rest =>
      if included >=? maxFiles then (parts, included)
      else
        match readSample fs file maxChars with
        | None => summarize_loop rest parts included
        | Some sample =>
            summarize_loop rest
              (parts ++ [block (relativePath dir file) sample]) (included + 1)
        end
  end.

(** The array [parts] just before [parts.join]. The generator is pulled
    one path at a time, and what it yields does not depend on its consumer,
    which can only stop pulling: the loop runs over the sequence of yields. *)
Definition summarize_parts (fuel : nat) : option (list jsstring) :=
  files ← walk fs maxFiles fuel dir;
  let '(parts, included) := summarize_loop files [header dir] 0 in
  Some (if included =? 0 then parts ++ [sentinel] else parts).

Definition summarizeRepo (fuel : nat) : option jsstring :=
  JS.join [newline] <$> summarize_parts fuel.

(** The files the loop includes, with the sample taken of each: the
    excerpts of the summary, as data. *)
Fixpoint excerpts (files : list jsstring) (included : Z)
  : list (jsstring * jsstring) :=
  match files with
  | [] => []
  | file :: rest =>
      if included >=? maxFiles then []
      else
        match readSample fs file maxChars with
        | None => excerpts rest included
        | Some sample => (file, sample) :: excerpts rest (included + 1)
        end
  end.

End Summarize.

(** ** Vocabulary of the specification *)

(** The segments of a path: what stands between its separators. *)
Definition segments (path : jsstring) : list jsstring :=
  filter (fun seg => seg <> []) (split_on slash path).

(** The basename of a path: what follows its last separator. *)
Definition basename (path : jsstring) : jsstring :=
  slice path (lastIndexOf path slash + 1) None.

(** Binary classification in the words of the specification: the final
    extension is the substring from the last dot of the basename, lowercased
    and looked up in the set; a basename without a dot has no extension. *)
Definition extension (path : jsstring) : option jsstring :=
  let b := basename path in
  let i := lastIndexOf b dot in
  if i <? 0 then None else Some (toLowerCase (slice b i None)).

Definition binary_by_spec (path : jsstring) : bool :=
  match extension path with
  | Some ext => has BINARY_EXT ext
  | None => false
  end.

(** [q] is a directory for [statSync]. *)
Definition is_dir (fs : FS) (q : jsstring) : bool :=
  match statSync fs q with
  | Some s => isDirectory s
  | None => false
  end.

(** [q] is a regular file and not a directory for [statSync]: the entries
    [walk] yields. *)
Definition is_file (fs : FS) (q : jsstring) : bool :=
  match statSync fs q with
  | Some s => negb (isDirectory s) && isFile s
  | None => false
  end.

(** The directories under [p] nest at most [n] levels deep: a finite
    directory tree. *)
Fixpoint depth_le (fs : FS) (n : nat) (p : jsstring) : bool :=
  match readdir fs p with
  | None => true
  | Some dirents =>
      forallb
        (fun name =>
           let q := join p name in
           if is_dir fs q then
             match n with
             | O => false
             | S n' => depth_le fs n' q
             end
           else true)
        dirents
  end.

(** The directories the traversal can reach from [root]: the root itself,
    whatever its name, and below a reached directory every listed entry that
    is not ignored and is a directory. *)
Inductive reached (fs : FS) (root : jsstring) : jsstring -> Prop :=
| reached_root : reached fs root root
| reached_entry p dirents name :
    reached fs root p ->
    readdir fs p = Some dirents ->
    name ∈ dirents ->
    has DEFAULT_IGNORES name = false ->
    is_dir fs (join p name) = true ->
    reached fs root (join p name).

(** An entry name as a file system gives it: not empty, no separator, and
    neither of the two dot entries, which [readdir] leaves out. *)
Definition plain_name (name : jsstring) : Prop :=
  name <> [] /\ (slash ∉ name) /\ name <> [dot] /\ name <> [dot; dot].

Definition plain_names (fs : FS) : Prop :=
  forall p dirents name,
    readdir fs p = Some dirents -> name ∈ dirents -> plain_name name.

(** A path as [resolve] returns it, which is how [main] passes the root:
    absolute and normalised, the file-system root or a separator before each
    of its segments. *)
Definition resolved (p : jsstring) : Prop :=
  p = [slash]
  \/ (exists segs,
        segs <> [] /\ Forall plain_name segs
        /\ p = slash :: JS.join [slash] segs).

(** The files of one listing that [walk] would yield with no cap. *)
Definition eligible (fs : FS) (current : jsstring) (dirents : list jsstring)
  : list jsstring :=
  filter (fun full => is_file fs full = true)
    (map (join current)
       (filter (fun name => has DEFAULT_IGNORES name = false) dirents)).

(** One entry of a listing, as the loop body of [walk] takes it: a listed
    name that is not ignored, joined to the directory. *)
Definition entry_of (current : jsstring) (dirents : list jsstring)
    (full : jsstring) : Prop :=
  exists name, name ∈ dirents /\ has DEFAULT_IGNORES name = false
               /\ full = join current name.

(** [file] is an entry of a directory reached from [root], and a file. *)
Definition yielded_from (fs : FS) (root file : jsstring) : Prop :=
  exists p dirents,
    reached fs root p /\ readdir fs p = Some dirents
    /\ entry_of p dirents file /\ is_file fs file = true.

(** [p] is [root] extended by the entry names [names], one after the
    other. *)
Definition extends (root : jsstring) (names : list jsstring) (p : jsstring)
  : Prop :=
  p = foldl join root names.

(** The loop of [walk] completes on [stack] whatever the count. *)
Definition completes (fs : FS) (maxFiles : Z) (stack : list jsstring) : Prop :=
  forall count, exists fuel evs,
    walk_loop fs maxFiles fuel stack count = Some evs.

(** The block of an excerpt [(file, sample)] in a summary of [dir]. *)
Definition excerpt_block (dir : jsstring) (e : jsstring * jsstring)
  : jsstring :=
  block (relativePath dir e.1) e.2.

(** The array [parts] of a summary whose excerpts are [ex]. *)
Definition parts_of (dir : jsstring) (ex : list (jsstring * jsstring))
  : list jsstring :=
  header dir :: map (excerpt_block dir) ex
  ++ (if bool_decide (ex = []) then [sentinel] else []).

(** The lines of a string: what lies between its newlines. *)
Definition lines (s : jsstring) : list jsstring := split_on newline s.

(** ** Concrete file systems *)

Module Fixtures.

Definition DIR : Stats := {| isDirectory := true; isFile := false |}.
Definition FILE : Stats := {| isDirectory := false; isFile := true |}.
Definition SOCKET : Stats := {| isDirectory := false; isFile := false |}.

Definition eqb_path (p q : jsstring) : bool := bool_decide (p = q).

Fixpoint assoc {A} (tbl : list (jsstring * A)) (p : jsstring) : option A :=
  match tbl with
  | [] => None
  | (q, a) :: tbl' => if eqb_path p q then Some a else assoc tbl' p
  end.

(** A file system given by tables. A directory is listed with its entry
    names, or [None] when listing it throws; a file with its decoded text,
    or [None] when reading it throws; [others] are entries that are neither
    (sockets, devices). A path in no table does not exist: every operation
    on it throws. *)
Definition table_fs
    (dirs : list (jsstring * option (list jsstring)))
    (files : list (jsstring * option jsstring))
    (others : list jsstring) : FS :=
  {| readdir p := mjoin (assoc dirs p);
     statSync p :=
       match assoc dirs p, assoc files p with
       | Some _, _ => Some DIR
       | None, Some _ => Some FILE
       | None, None => if existsb (eqb_path p) others then Some SOCKET else None
       end;
     readText p := mjoin (assoc files p) |}.

(** The scenario of the spec: a.txt, img.png and an ignored node_modules. *)
Definition repo_fs : FS :=
  table_fs
    [ (lit "/repo", Some [lit "a.txt"; lit "img.png"; lit "node_modules"]);
      (lit "/repo/node_modules", Some [lit "x.js"]) ]
    [ (lit "/repo/a.txt", Some (lit "hello"));
      (lit "/repo/img.png", Some [137; 80; 78; 71]%N);
      (lit "/repo/node_modules/x.js", Some (lit "x")) ]
    [].

(** A root whose own name is in the ignore set. *)
Definition build_fs : FS :=
  table_fs
    [ (lit "/srv/build", Some [lit "main.ts"; lit "dist"]);
      (lit "/srv/build/dist", Some [lit "main.js"]) ]
    [ (lit "/srv/build/main.ts", Some (lit "export {}"));
      (lit "/srv/build/dist/main.js", Some (lit "{}")) ]
    [].

(** A binary file listed before a text file. *)
Definition png_first_fs : FS :=
  table_fs
    [ (lit "/r", Some [lit "img.png"; lit "a.txt"]) ]
    [ (lit "/r/img.png", Some [137; 80; 78; 71]%N);
      (lit "/r/a.txt", Some (lit "hello")) ]
    [].

(** Failures of every kind: a directory that cannot be listed, an entry
    that cannot be classified (it is listed but does not exist), a socket, a
    file that cannot be read, and one readable file. *)
Definition faulty_fs : FS :=
  table_fs
    [ (lit "/w", Some [lit "locked"; lit "gone"; lit "sock"; lit "secret.txt";
                       lit "sub"]);
      (lit "/w/locked", None);
      (lit "/w/sub", Some [lit "ok.md"]) ]
    [ (lit "/w/secret.txt", None);
      (lit "/w/sub/ok.md", Some (lit "fine")) ]
    [ lit "/w/sock" ].

(** A file whose text is one supplementary character, U+1F600, followed by
    the letter a: three code units, two code points. *)
Definition emoji_text : jsstring := [55357; 56832; 97]%N.

Definition emoji_fs : FS :=
  table_fs
    [ (lit "/e", Some [lit "smile.txt"]) ]
    [ (lit "/e/smile.txt", Some emoji_text) ]
    [].

(** A file whose whole text is the sentinel line. *)
Definition note_fs : FS :=
  table_fs
    [ (lit "/s", Some [lit "note.txt"]) ]
    [ (lit "/s/note.txt", Some sentinel) ]
    [].



(** The relative root . with a dot file: [join] gives the entry its bare
    name. *)
Definition dot_fs : FS :=
  table_fs
    [ (lit ".", Some [lit ".eslintrc"]) ]
    [ (lit ".eslintrc", Some (lit "{}")) ]
    [].

(** A directory that lists itself for ever: every path is a directory
    whose only entry is d. *)
Definition endless_fs : FS :=
  {| readdir _ := Some [lit "d"];
     statSync _ := Some DIR;
     readText _ := None |}.

End Fixtures.

(** ** More vocabulary for the traversal *)

(** The entries of one listing that [walk] pushes on its stack, in listing
    order: those not ignored that are directories. *)
Definition subdirs (fs : FS) (current : jsstring) (dirents : list jsstring)
  : list jsstring :=
  filter (fun full => is_dir fs full = true)
    (map (join current)
       (filter (fun name => has DEFAULT_IGNORES name = false) dirents)).

(** The sample of each file that has one, in order. *)
Definition sampled (fs : FS) (maxChars : Z) (files : list jsstring)
  : list (jsstring * jsstring) :=
  omap (fun file => pair file <$> readSample fs file maxChars) files.

(** ** buildPrompt *)

(** White space and line terminators, the code units [trim] removes. *)
Definition is_space (u : N) : bool :=
  existsb (N.eqb u)
    [9; 10; 11; 12; 13; 32; 160; 5760; 8232; 8233; 8239; 8287; 12288; 65279]%N
  || ((8192 <=? u)%N && (u <=? 8202)%N).

Fixpoint trimStart (s : jsstring) : jsstring :=
  match s with
  | c :: s' => if is_space c then trimStart s' else s
  | [] => []
  end.

Definition trimEnd (s : jsstring) : jsstring := rev (trimStart (rev s)).

(** [s.trim()] *)
Definition trim (s : jsstring) : jsstring := trimEnd (trimStart s).

(** A string of white space only, the empty string included. *)
Definition blank (s : jsstring) : Prop :=
  Forall (fun u => is_space u = true) s.

(** The fixed text of the template before the summary. *)
Definition preamble : jsstring :=
  JS.join [newline]
    (map lit
       [ "You are a senior code analysis agent.";
         "You will analyze a codebase snapshot provided as a compact summary of files and selected excerpts.";
         "";
         "Goals:";
         "- Identify architecture, main technologies, and structure.";
         "- Highlight potential issues, dead code, security risks, and obvious improvements.";
         "- Suggest a prioritized action plan.";
         "";
         "Constraints:";
         "- Be concise but actionable.";
         "- Quote filenames when referencing.";
         "- Only infer from provided content.";
         "";
         "Repository Summary:";
         "-------------------";
         "" ]%string).

(** [base], lines 11 to 27. *)
Definition base (summary : jsstring) : jsstring :=
  preamble ++ summary ++ [newline].

(** [buildPrompt(summary, userPrompt)]; [None] is an argument left out. The
    test [userPrompt && ...] fails on [undefined] and on the empty string. *)
Definition buildPrompt (summary : jsstring) (userPrompt : option jsstring)
  : jsstring :=
  match userPrompt with
  | Some p =>
      if negb (bool_decide (p = [])) && (JS.length (trim p) >? 0)
      then base summary ++ [newline] ++ lit "User focus: " ++ trim p
      else base summary
  | None => base summary
  end.

(** ** The directory of the report file *)

(** [outDir], line 244 of [main]: the path cut at its last backslash when
    it has one, at its last slash otherwise. *)
Definition outDir (outPath : jsstring) : jsstring :=
  slice outPath 0
    (Some (if lastIndexOf outPath backslash >? -1
           then lastIndexOf outPath backslash
           else lastIndexOf outPath slash)).

(** ** parseArgs *)

(** A JavaScript number, as far as the options need it told apart. *)
Inductive number :=
| Integer (z : Z)
| NaN
| Fraction.

Record Options := {
  opt_dir : jsstring;
  opt_prompt : option jsstring;
  opt_model : option jsstring;
  opt_temperature : option number;
  opt_maxFiles : number;
  opt_maxCharsPerFile : number;
  opt_out : option jsstring
}.

(** What [parseArgs] comes to: the options, or the end of the process with
    status 0 after the help text. *)
Inductive parsed :=
| Parsed (opts : Options)
| Exit0.

Section ParseArgs.
(** The runtime: [Number(x)], [resolve(x)] and [process.cwd()]. *)
Context (Number : option jsstring -> number)
        (resolve : jsstring -> jsstring)
        (cwd : jsstring).

Definition default_options : Options :=
  {| opt_dir := cwd; opt_prompt := None; opt_model := None;
     opt_temperature := None; opt_maxFiles := Integer 60;
     opt_maxCharsPerFile := Integer 4000; opt_out := None |}.

Definition named (a : jsstring) (flag : string) : bool :=
  bool_decide (a = lit flag).

(** The branches of the loop that call [next()]: what each does to the
    options with the value [next()] returned, [None] for [undefined]. *)
Definition value_flag (a : jsstring)
  : option (option jsstring -> Options -> Options) :=
  if named a "--dir" || named a "-d" then
    Some (fun v o =>
            {| opt_dir := resolve (default (lit ".") v);
               opt_prompt := opt_prompt o; opt_model := opt_model o;
               opt_temperature := opt_temperature o;
               opt_maxFiles := opt_maxFiles o;
               opt_maxCharsPerFile := opt_maxCharsPerFile o;
               opt_out := opt_out o |})
  else if named a "--prompt" || named a "-p" then
    Some (fun v o =>
            {| opt_dir := opt_dir o; opt_prompt := v;
               opt_model := opt_model o;
               opt_temperature := opt_temperature o;
               opt_maxFiles := opt_maxFiles o;
               opt_maxCharsPerFile := opt_maxCharsPerFile o;
               opt_out := opt_out o |})
  else if named a "--model" || named a "-m" then
    Some (fun v o =>
            {| opt_dir := opt_dir o; opt_prompt := opt_prompt o;
               opt_model := v;
               opt_temperature := opt_temperature o;
               opt_maxFiles := opt_maxFiles o;
               opt_maxCharsPerFile := opt_maxCharsPerFile o;
               opt_out := opt_out o |})
  else if named a "--temperature" || named a "-t" then
    Some (fun v o =>
            {| opt_dir := opt_dir o; opt_prompt := opt_prompt o;
               opt_model := opt_model o;
               opt_temperature := Some (Number v);
               opt_maxFiles := opt_maxFiles o;
               opt_maxCharsPerFile := opt_maxCharsPerFile o;
               opt_out := opt_out o |})
  else if named a "--max-files" then
    Some (fun v o =>
            {| opt_dir := opt_dir o; opt_prompt := opt_prompt o;
               opt_model := opt_model o;
               opt_temperature := opt_temperature o;
               opt_maxFiles := Number v;
               opt_maxCharsPerFile := opt_maxCharsPerFile o;
               opt_out := opt_out o |})
  else if named a "--max-chars" then
    Some (fun v o =>
            {| opt_dir := opt_dir o; opt_prompt := opt_prompt o;
               opt_model := opt_model o;
               opt_temperature := opt_temperature o;
               opt_maxFiles := opt_maxFiles o;
               opt_maxCharsPerFile := Number v;
               opt_out := opt_out o |})
  else if named a "--out" || named a "-o" then
    Some (fun v o =>
            {| opt_dir := opt_dir o; opt_prompt := opt_prompt o;
               opt_model := opt_model o;
               opt_temperature := opt_temperature o;
               opt_maxFiles := opt_maxFiles o;
               opt_maxCharsPerFile := opt_maxCharsPerFile o;
               opt_out := v |})
  else None.

(** A positional argument: [opts.dir = resolve(a)]. *)
Definition positional (a : jsstring) (o : Options) : Options :=
  {| opt_dir := resolve a; opt_prompt := opt_prompt o;
     opt_model := opt_model o; opt_temperature := opt_temperature o;
     opt_maxFiles := opt_maxFiles o;
     opt_maxCharsPerFile := opt_maxCharsPerFile o; opt_out := opt_out o |}.

(** The [for] loop of [parseArgs] over the arguments from index 2 on.
    [next()] takes the argument after the flag when there is one, and the loop
    goes on after it; when there is none the flag is the last argument and the
    loop ends. *)
Fixpoint parse_loop (args : list jsstring) (opts : Options) : parsed :=
  match args with
  | [] => Parsed opts
  | a :: rest =>
      match value_flag a with
      | Some set =>
          match rest with
          | v :: rest' => parse_loop rest' (set (Some v) opts)
          | [] => Parsed (set None opts)
          end
      | None =>
          if named a "--help" || named a "-h" then Exit0
          else if negb (startsWith a (lit "-"))
          then parse_loop rest (positional a opts)
          else parse_loop rest opts
      end
  end.

Definition parseArgs (argv : list jsstring) : parsed :=
  parse_loop (drop 2 argv) default_options.

End ParseArgs.

(** The arguments that are read as a flag followed by its value, and the
    two that ask for the help text. *)
Definition takes_value (a : jsstring) : bool :=
  bool_decide
    (a ∈ map lit
           [ "--dir"; "-d"; "--prompt"; "-p"; "--model"; "-m";
             "--temperature"; "-t"; "--max-files"; "--max-chars";
             "--out"; "-o" ]%string).

Definition asks_help (a : jsstring) : bool :=
  named a "--help" || named a "-h".

(** Arguments that the loop reads to their end as whole items: each flag
    that takes a value has one after it, up to the end of the list or to a
    request for help in the place of a flag. *)
Fixpoint aligned (args : list jsstring) : bool :=
  match args with
  | [] => true
  | a :: rest =>
      if takes_value a then
        match rest with
        | _ :: rest' => aligned rest'
        | [] => false
        end
      else if asks_help a then true
      else aligned rest
  end.

(** A runtime for concrete runs of [parseArgs]: [Number] knows the
    numeral 5 and gives NaN otherwise, as it does for [undefined]; [resolve]
    puts a relative path under the directory /cwd. *)
Definition Number_5 (v : option jsstring) : number :=
  match v with
  | Some s => if bool_decide (s = lit "5") then Integer 5 else NaN
  | None => NaN
  end.

Definition resolve_cwd (a : jsstring) : jsstring :=
  if startsWith a [slash] then a else lit "/cwd/" ++ a.

(** * Properties *)

(** ** String primitives *)

Section StringFacts.
Implicit Types s p t : jsstring.

Lemma slice_to s m : 0 <= m -> slice s 0 (Some m) = take (Z.to_nat m) s.
Proof.
  intros Hm. unfold slice, clamp, JS.length.
  replace (0 <? 0) with false by reflexivity.
  destruct (Z.ltb_spec m 0); [lia|].
  rewrite (Z.min_l 0) by lia. rewrite Z.sub_0_r.
  change (drop (Z.to_nat 0) s) with s.
  destruct (Z.min_spec m (Z.of_nat (List.length s))) as [[Hlen ->]|[Hlen ->]].
  - reflexivity.
  - rewrite Nat2Z.id, !firstn_all2 by lia. reflexivity.
Qed.

Lemma slice_from s i : 0 <= i -> slice s i None = drop (Z.to_nat i) s.
Proof.
  intros Hi. unfold slice, clamp, JS.length.
  destruct (Z.ltb_spec i 0); [lia|].
  destruct (Z.min_spec i (Z.of_nat (List.length s))) as [[Hlen ->]|[Hlen ->]].
  - apply firstn_all2. rewrite length_drop. lia.
  - rewrite Nat2Z.id, !skipn_all2 by lia. apply take_nil.
Qed.

Lemma slice_length_le s m : 0 <= m -> JS.length (slice s 0 (Some m)) <= m.
Proof.
  intros Hm. rewrite slice_to by assumption. unfold JS.length.
  rewrite length_take. lia.
Qed.

Lemma lastIndexOf_from_absent c s i found :
  c ∉ s -> lastIndexOf_from c s i found = found.
Proof.
  revert i found. induction s as [|x s IH]; intros i found Hc; simpl; [reflexivity|].
  apply not_elem_of_cons in Hc as [Hx Hs].
  destruct (N.eqb_spec x c); [congruence|]. apply IH, Hs.
Qed.

Lemma lastIndexOf_from_last c pre post i found :
  c ∉ post ->
  lastIndexOf_from c (pre ++ c :: post) i found = i + Z.of_nat (List.length pre).
Proof.
  revert i found. induction pre as [|x pre IH]; intros i found Hc; simpl.
  - rewrite N.eqb_refl, lastIndexOf_from_absent by assumption. lia.
  - rewrite IH by assumption. lia.
Qed.

Lemma lastIndexOf_absent s c : c ∉ s -> lastIndexOf s c = -1.
Proof. apply lastIndexOf_from_absent. Qed.

Lemma lastIndexOf_last pre post c :
  c ∉ post -> lastIndexOf (pre ++ c :: post) c = Z.of_nat (List.length pre).
Proof. intros H. unfold lastIndexOf. rewrite lastIndexOf_from_last; auto. Qed.

(** A string splits at the last occurrence of a unit it contains. *)
Lemma split_at_last s c :
  c ∈ s -> exists pre post, s = pre ++ c :: post /\ c ∉ post.
Proof.
  induction s as [|x s IH]; intros Hc; [by apply elem_of_nil in Hc|].
  destruct (decide (c ∈ s)) as [Hs|Hs].
  - destruct (IH Hs) as (pre & post & -> & Hp). by exists (x :: pre), post.
  - apply elem_of_cons in Hc as [->|Hc]; [|done]. by exists [], s.
Qed.

Lemma drop_at pre (t : jsstring) :
  drop (Z.to_nat (Z.of_nat (List.length pre))) (pre ++ t) = t.
Proof. rewrite Nat2Z.id. apply drop_app_length. Qed.

Lemma startsWith_prefix s p : startsWith s p = true <-> exists t, s = p ++ t.
Proof.
  revert s. induction p as [|c p IH]; intros s; simpl.
  - split; [intros _; by exists s|done].
  - destruct s as [|x s]; simpl.
    + split; [done|by intros [t Ht]].
    + rewrite andb_true_iff, IH. split.
      * intros [Hx [t ->]]. apply N.eqb_eq in Hx as ->. by exists t.
      * intros [t Ht]. injection Ht as -> ->. split; [apply N.eqb_refl|by exists t].
Qed.

Lemma endsWith_unit s c : endsWith s [c] = true <-> exists r, s = r ++ [c].
Proof.
  unfold endsWith. rewrite startsWith_prefix. simpl. split.
  - intros [t Ht]. exists (rev t). rewrite <- (rev_involutive s), Ht. reflexivity.
  - intros [r ->]. exists (rev r). by rewrite rev_app_distr.
Qed.

Lemma lower_unit_slash u : lower_unit u = slash -> u = slash.
Proof.
  unfold lower_unit, slash.
  destruct ((65 <=? u)%N && (u <=? 90)%N) eqn:E.
  - apply andb_true_iff in E as [H1 H2].
    apply N.leb_le in H1. apply N.leb_le in H2. lia.
  - destruct (N.eqb_spec u 8490); [discriminate|done].
Qed.

Lemma toLowerCase_slash s : slash ∈ s -> slash ∈ toLowerCase s.
Proof.
  intros H. unfold toLowerCase. apply list_elem_of_fmap.
  exists slash. split; [reflexivity|assumption].
Qed.

Lemma codepoints_length s : (List.length (codepoints s) <= List.length s)%nat.
Proof.
  assert (H : forall n s, (List.length s <= n)%nat ->
            (List.length (codepoints s) <= List.length s)%nat).
  { clear s. induction n as [|n IH]; intros s Hn.
    - destruct s; simpl in *; lia.
    - destruct s as [|h [|l s]]; simpl in *; try lia.
      destruct (is_high h && is_low l); simpl.
      + specialize (IH s ltac:(lia)). lia.
      + specialize (IH (l :: s) ltac:(simpl; lia)). simpl in IH. lia. }
  eapply H. reflexivity.
Qed.

End StringFacts.

(** ** The traversal *)

Lemma yields_app evs1 evs2 : yields (evs1 ++ evs2) = yields evs1 ++ yields evs2.
Proof. apply omap_app. Qed.

Lemma yields_Yielded ys : yields (map Yielded ys) = ys.
Proof. induction ys as [|y ys IH]; simpl; [reflexivity|]. unfold yields in *. simpl. by rewrite IH. Qed.

Lemma listings_app evs1 evs2 :
  listings (evs1 ++ evs2) = listings evs1 ++ listings evs2.
Proof. apply omap_app. Qed.

Lemma listings_Yielded ys : listings (map Yielded ys) = [].
Proof. induction ys as [|y ys IH]; [reflexivity|]. exact IH. Qed.

Section WalkFacts.
Context (fs : FS) (maxFiles : Z).

Ltac split4 := split; [|split; [|split]].

(** Case analysis following the branches of the body of [walk_dirents]. *)
Ltac walk_dirents_cases IH :=
  simpl;
  match goal with
  | |- context [?c >=? maxFiles] => destruct (Z.geb_spec c maxFiles)
  end;
  [ | match goal with
      | |- context [has DEFAULT_IGNORES ?n] =>
          destruct (has DEFAULT_IGNORES n) eqn:Hign
      end;
      [ | match goal with
          | |- context [statSync fs ?q] =>
              destruct (statSync fs q) as [st|] eqn:Hstat;
              [ destruct (isDirectory st) eqn:Hdir;
                [ | destruct (isFile st) eqn:Hfile ] | ]
          end ] ].

Lemma walk_dirents_spec current dirents stack count :
  let '(stack', count', ys) :=
    walk_dirents fs maxFiles current dirents stack count in
  count' = count + Z.of_nat (List.length ys)
  /\ (count <= maxFiles -> count' <= maxFiles)
  /\ (exists pushed, stack' = pushed ++ stack
        /\ Forall (fun q => entry_of current dirents q /\ is_dir fs q = true)
             pushed)
  /\ Forall (fun f => entry_of current dirents f /\ is_file fs f = true) ys.
Proof.
  revert stack count.
  induction dirents as [|name rest IH]; intros stack count.
  { simpl. split4; [simpl; lia|done|by exists []|constructor]. }
  assert (Hweak : forall P : jsstring -> Prop, forall l,
            Forall (fun q => entry_of current rest q /\ P q) l ->
            Forall (fun q => entry_of current (name :: rest) q /\ P q) l).
  { intros P l Hl. eapply Forall_impl; [exact Hl|]. intros q [(n & Hn & Hi & ->) HP].
    split; [|exact HP]. exists n. by rewrite elem_of_cons; auto. }
  assert (Hhere : has DEFAULT_IGNORES name = false ->
            entry_of current (name :: rest) (join current name)).
  { intros Hi. exists name. split; [by left|done]. }
  walk_dirents_cases IH.
  - split4; [simpl; lia|done|by exists []|constructor].
  - specialize (IH stack count).
    destruct (walk_dirents fs maxFiles current rest stack count) as [[s' c'] ys].
    destruct IH as (H1 & H2 & (pushed & -> & H3) & H4).
    split4; auto. exists pushed; auto.
  - specialize (IH (join current name :: stack) count).
    destruct (walk_dirents _ _ _ rest _ _) as [[s' c'] ys].
    destruct IH as (H1 & H2 & (pushed & -> & H3) & H4).
    split4; auto. exists (pushed ++ [join current name]).
    split; [by rewrite <- app_assoc|].
    apply Forall_app. split; [auto|]. constructor; [|constructor].
    split; [auto|]. unfold is_dir. by rewrite Hstat.
  - specialize (IH stack (count + 1)).
    destruct (walk_dirents _ _ _ rest _ _) as [[s' c'] ys].
    destruct IH as (H1 & H2 & (pushed & -> & H3) & H4).
    split4; [simpl; lia|lia|exists pushed; auto|].
    constructor; [|auto]. split; [auto|].
    unfold is_file. by rewrite Hstat, Hdir, Hfile.
  - specialize (IH stack count).
    destruct (walk_dirents _ _ _ rest _ _) as [[s' c'] ys].
    destruct IH as (H1 & H2 & (pushed & -> & H3) & H4).
    split4; auto. exists pushed; auto.
  - specialize (IH stack count).
    destruct (walk_dirents _ _ _ rest _ _) as [[s' c'] ys].
    destruct IH as (H1 & H2 & (pushed & -> & H3) & H4).
    split4; auto. exists pushed; auto.
Qed.

(** The files one listing yields are the first eligible ones, as many as the
    cap still allows. *)
Lemma walk_dirents_yields current dirents stack count :
  (walk_dirents fs maxFiles current dirents stack count).2
  = take (Z.to_nat (maxFiles - count)) (eligible fs current dirents).
Proof.
  revert stack count.
  induction dirents as [|name rest IH]; intros stack count.
  { unfold eligible. simpl. by rewrite filter_nil, take_nil. }
  unfold eligible in *.
  walk_dirents_cases IH.
  - replace (Z.to_nat (maxFiles - count)) with 0%nat by lia. reflexivity.
  - rewrite IH. rewrite filter_cons_False; [done|]. by rewrite Hign.
  - rewrite IH. rewrite filter_cons_True by done. simpl.
    rewrite filter_cons_False; [done|].
    unfold is_file. rewrite Hstat, Hdir. simpl. congruence.
  - specialize (IH stack (count + 1)).
    destruct (walk_dirents _ _ _ rest _ _) as [[s' c'] ys]. simpl in *.
    rewrite filter_cons_True by done. simpl.
    rewrite filter_cons_True by (unfold is_file; by rewrite Hstat, Hdir, Hfile).
    replace (Z.to_nat (maxFiles - count))
      with (S (Z.to_nat (maxFiles - (count + 1)))) by lia.
    simpl. by rewrite IH.
  - rewrite IH. rewrite filter_cons_True by done. simpl.
    rewrite filter_cons_False; [done|].
    unfold is_file. rewrite Hstat, Hdir, Hfile. simpl. congruence.
  - rewrite IH. rewrite filter_cons_True by done. simpl.
    rewrite filter_cons_False; [done|].
    unfold is_file. rewrite Hstat. congruence.
Qed.

End WalkFacts.

Section WalkLoopFacts.
Context (fs : FS) (maxFiles : Z).

Local Abbreviation walk_loop := (walk_loop fs maxFiles).
Local Abbreviation walk_dirents := (walk_dirents fs maxFiles).

(** The equations of the loop, one per way through its body. *)
Lemma walk_loop_nil fuel count : walk_loop fuel [] count = Some [].
Proof. by destruct fuel. Qed.

Lemma walk_loop_full fuel stack count :
  maxFiles <= count -> walk_loop fuel stack count = Some [].
Proof.
  intros H. destruct fuel, stack; simpl; try reflexivity;
    destruct (Z.ltb_spec count maxFiles); (reflexivity || lia).
Qed.

Lemma walk_loop_unlistable fuel current stack count :
  count < maxFiles -> readdir fs current = None ->
  walk_loop (S fuel) (current :: stack) count
  = (evs ← walk_loop fuel stack count; Some (Listed current :: evs)).
Proof.
  intros H Hr. simpl. rewrite Hr.
  destruct (Z.ltb_spec count maxFiles); [reflexivity|lia].
Qed.

Lemma walk_loop_listed fuel current stack count dirents :
  count < maxFiles -> readdir fs current = Some dirents ->
  walk_loop (S fuel) (current :: stack) count
  = (let '(stack', count', ys) := walk_dirents current dirents stack count in
     evs ← walk_loop fuel stack' count';
     Some (Listed current :: map Yielded ys ++ evs)).
Proof.
  intros H Hr. simpl. rewrite Hr.
  destruct (Z.ltb_spec count maxFiles); [reflexivity|lia].
Qed.

(** Inversion of a completed run. *)
Lemma walk_loop_inv fuel stack count evs :
  walk_loop fuel stack count = Some evs ->
  (evs = [] /\ (stack = [] \/ maxFiles <= count))
  \/ exists fuel' current stack0 evs',
       fuel = S fuel' /\ stack = current :: stack0 /\ count < maxFiles
       /\ ((readdir fs current = None
            /\ walk_loop fuel' stack0 count = Some evs'
            /\ evs = Listed current :: evs')
           \/ exists dirents stack' count' ys,
                readdir fs current = Some dirents
                /\ walk_dirents current dirents stack0 count
                   = (stack', count', ys)
                /\ walk_loop fuel' stack' count' = Some evs'
                /\ evs = Listed current :: map Yielded ys ++ evs').
Proof.
  intros H. destruct stack as [|current stack0].
  { rewrite walk_loop_nil in H. injection H as <-. left. auto. }
  destruct (Z.lt_ge_cases count maxFiles) as [Hc|Hc].
  2:{ rewrite walk_loop_full in H by assumption. injection H as <-. left. auto. }
  right. destruct fuel as [|fuel'].
  { simpl in H. destruct (Z.ltb_spec count maxFiles); [discriminate|lia]. }
  exists fuel', current, stack0.
  destruct (readdir fs current) as [dirents|] eqn:Hr.
  - rewrite (walk_loop_listed _ _ _ _ dirents) in H by assumption.
    destruct (walk_dirents current dirents stack0 count) as [[stack' count'] ys] eqn:Hd.
    destruct (walk_loop fuel' stack' count') as [evs'|] eqn:Hl; [|discriminate].
    simpl in H. injection H as <-. exists evs'.
    split; [done|]. split; [done|]. split; [done|]. right.
    by exists dirents, stack', count', ys.
  - rewrite walk_loop_unlistable in H by assumption.
    destruct (walk_loop fuel' stack0 count) as [evs'|] eqn:Hl; [|discriminate].
    simpl in H. injection H as <-. exists evs'.
    split; [done|]. split; [done|]. split; [done|]. by left.
Qed.

(** The count is the number of paths yielded so far, and it never passes
    the cap. *)
Lemma walk_loop_cap fuel stack count evs :
  walk_loop fuel stack count = Some evs ->
  count <= maxFiles ->
  count + Z.of_nat (List.length (yields evs)) <= maxFiles.
Proof.
  revert stack count evs. induction fuel as [|fuel IH]; intros stack count evs H Hc;
    apply walk_loop_inv in H
      as [[-> _]|(f' & cur & st0 & evs' & Hf & -> & Hlt & Hbody)];
    try (simpl; lia); try discriminate.
  injection Hf as <-.
  destruct Hbody as [(Hr & Hl & ->)|(ds & st' & c' & ys & Hr & Hd & Hl & ->)].
  - apply IH in Hl; [|lia]. exact Hl.
  - pose proof (walk_dirents_spec fs maxFiles cur ds st0 count) as Hs.
    rewrite Hd in Hs. destruct Hs as (Hcount & Hcap & _).
    apply IH in Hl; [|lia].
    change (Listed cur :: map Yielded ys ++ evs')
      with ([Listed cur] ++ map Yielded ys ++ evs').
    rewrite !yields_app, yields_Yielded, !length_app. simpl. lia.
Qed.

(** More fuel does not change a completed run. *)
Lemma walk_loop_fuel fuel fuel' stack count evs :
  walk_loop fuel stack count = Some evs -> (fuel <= fuel')%nat ->
  walk_loop fuel' stack count = Some evs.
Proof.
  revert fuel' stack count evs.
  induction fuel as [|fuel IH]; intros fuel' stack count evs H Hle;
    apply walk_loop_inv in H
      as [[-> Hstop]|(f' & cur & st0 & evs' & Hf & -> & Hlt & Hbody)];
    try discriminate;
    try (destruct Hstop as [->|Hstop];
         [apply walk_loop_nil|by apply walk_loop_full]).
  injection Hf as <-. destruct fuel' as [|fuel']; [lia|].
  destruct Hbody as [(Hr & Hl & ->)|(ds & st' & c' & ys & Hr & Hd & Hl & ->)].
  - rewrite walk_loop_unlistable by assumption.
    rewrite (IH fuel' _ _ _ Hl) by lia. reflexivity.
  - rewrite (walk_loop_listed _ _ _ _ ds) by assumption. rewrite Hd.
    rewrite (IH fuel' _ _ _ Hl) by lia. reflexivity.
Qed.

End WalkLoopFacts.

Section Reachability.
Context (fs : FS) (maxFiles : Z) (root : jsstring).

Lemma walk_loop_reached fuel stack count evs :
  Forall (reached fs root) stack ->
  walk_loop fs maxFiles fuel stack count = Some evs ->
  Forall (reached fs root) (listings evs) /\ Forall (yielded_from fs root) (yields evs).
Proof.
  revert stack count evs.
  induction fuel as [|fuel IH]; intros stack count evs Hst H;
    apply walk_loop_inv in H
      as [[-> _]|(f' & cur & st0 & evs' & Hf & -> & Hlt & Hbody)];
    try (split; constructor); try discriminate.
  injection Hf as <-. apply Forall_cons in Hst as [Hcur Hst0].
  destruct Hbody as [(Hr & Hl & ->)|(ds & st' & c' & ys & Hr & Hd & Hl & ->)].
  - destruct (IH _ _ _ Hst0 Hl) as [IH1 IH2]. split; [by constructor|exact IH2].
  - pose proof (walk_dirents_spec fs maxFiles cur ds st0 count) as Hs.
    rewrite Hd in Hs. destruct Hs as (_ & _ & (pushed & -> & Hpushed) & Hys).
    assert (Hst' : Forall (reached fs root) (pushed ++ st0)).
    { apply Forall_app. split; [|exact Hst0].
      eapply Forall_impl; [exact Hpushed|].
      intros q [(name & Hn & Hi & ->) Hq]. by eapply reached_entry. }
    destruct (IH _ _ _ Hst' Hl) as [IH1 IH2].
    change (Listed cur :: map Yielded ys ++ evs')
      with ([Listed cur] ++ map Yielded ys ++ evs').
    rewrite !listings_app, !yields_app, listings_Yielded, yields_Yielded.
    split; [by constructor|]. apply (Forall_app _ ys). split; [|exact IH2].
    eapply Forall_impl; [exact Hys|].
    intros f [He Hf]. by exists cur, ds.
Qed.

End Reachability.

(** ** Termination on a finite tree *)

Section Termination.
Context (fs : FS) (maxFiles : Z).

Local Abbreviation completes := (completes fs maxFiles).

Lemma completes_nil : completes [].
Proof. intros count. exists 0%nat, []. reflexivity. Qed.

Lemma depth_le_entries n p dirents q :
  depth_le fs n p = true -> readdir fs p = Some dirents ->
  entry_of p dirents q -> is_dir fs q = true ->
  exists n', n = S n' /\ depth_le fs n' q = true.
Proof.
  intros Hd Hr (name & Hn & _ & ->) Hq.
  destruct n as [|n']; simpl in Hd; rewrite Hr in Hd;
    rewrite forallb_forall in Hd;
    apply list_elem_of_In, Hd in Hn; rewrite Hq in Hn; [discriminate|].
  by exists n'.
Qed.

Lemma completes_push n :
  (forall p stack, depth_le fs n p = true -> completes stack ->
                   completes (p :: stack)) ->
  forall pushed stack,
    Forall (fun q => depth_le fs n q = true) pushed -> completes stack ->
    completes (pushed ++ stack).
Proof.
  intros Hone pushed stack Hp Hs.
  induction Hp as [|q pushed Hq _ IH]; [exact Hs|].
  simpl. by apply Hone.
Qed.

Lemma completes_depth n p stack :
  depth_le fs n p = true -> completes stack -> completes (p :: stack).
Proof.
  revert p stack. induction n as [|n IH]; intros p stack Hd Hs count;
    (destruct (Z.lt_ge_cases count maxFiles) as [Hc|Hc];
     [|exists 0%nat, []; by apply walk_loop_full]);
    (destruct (readdir fs p) as [dirents|] eqn:Hr;
     [|destruct (Hs count) as (fuel & evs & Hl);
       exists (S fuel), (Listed p :: evs);
       rewrite walk_loop_unlistable by assumption; by rewrite Hl]);
    pose proof (walk_dirents_spec fs maxFiles p dirents stack count) as Hspec;
    destruct (walk_dirents fs maxFiles p dirents stack count)
      as [[stack' count'] ys] eqn:Hwd;
    destruct Hspec as (_ & _ & (pushed & -> & Hpushed) & _).
  - assert (pushed = []) as ->.
    { destruct Hpushed as [|q pushed [He Hq] _]; [reflexivity|].
      destruct (depth_le_entries 0 p dirents q Hd Hr He Hq) as (? & ? & _).
      discriminate. }
    destruct (Hs count') as (fuel & evs & Hl).
    exists (S fuel), (Listed p :: map Yielded ys ++ evs).
    rewrite (walk_loop_listed _ _ _ _ _ _ dirents) by assumption.
    rewrite Hwd. simpl. by rewrite Hl.
  - assert (Hc' : completes (pushed ++ stack)).
    { apply (completes_push n IH); [|exact Hs].
      eapply Forall_impl; [exact Hpushed|]. intros q [He Hq].
      destruct (depth_le_entries (S n) p dirents q Hd Hr He Hq) as (n' & Hn & Hq').
      by injection Hn as <-. }
    destruct (Hc' count') as (fuel & evs & Hl).
    exists (S fuel), (Listed p :: map Yielded ys ++ evs).
    rewrite (walk_loop_listed _ _ _ _ _ _ dirents) by assumption.
    rewrite Hwd. by rewrite Hl.
Qed.

(** On a finite directory tree the traversal completes. *)
Lemma walk_completes n dir :
  depth_le fs n dir = true ->
  exists fuel files, walk fs maxFiles fuel dir = Some files.
Proof.
  intros Hd.
  destruct (completes_depth n dir [] Hd completes_nil 0) as (fuel & evs & H).
  exists fuel, (yields evs). unfold walk, walk_events. by rewrite H.
Qed.

End Termination.

(** ** The assembler *)

Section SummarizeFacts.
Context (fs : FS) (dir : jsstring) (maxFiles maxChars : Z).

Local Abbreviation excerpts := (excerpts fs maxFiles maxChars).
Local Abbreviation summarize_loop := (summarize_loop fs dir maxFiles maxChars).

(** [parts] grows by one block per excerpt, and [included] counts them. *)
Lemma summarize_loop_excerpts files parts included :
  summarize_loop files parts included
  = (parts ++ map (excerpt_block dir) (excerpts files included),
     included + Z.of_nat (List.length (excerpts files included))).
Proof.
  revert parts included.
  induction files as [|file rest IH]; intros parts included; simpl.
  { rewrite app_nil_r. f_equal. lia. }
  destruct (included >=? maxFiles).
  { simpl. rewrite app_nil_r. f_equal. lia. }
  destruct (readSample fs file maxChars) as [sample|]; [|apply IH].
  rewrite IH. simpl. rewrite <- app_assoc. simpl. f_equal. lia.
Qed.

(** Every excerpt is a sample of one of the files, and the cap holds. *)
Lemma excerpts_spec files included :
  Forall (fun e => e.1 ∈ files /\ readSample fs e.1 maxChars = Some e.2)
    (excerpts files included)
  /\ (included <= maxFiles ->
      included + Z.of_nat (List.length (excerpts files included)) <= maxFiles).
Proof.
  revert included. induction files as [|file rest IH]; intros included; simpl.
  { split; [constructor|lia]. }
  destruct (Z.geb_spec included maxFiles).
  { split; [constructor|simpl; lia]. }
  assert (Hweak : forall l : list (jsstring * jsstring),
            Forall (fun e => e.1 ∈ rest /\ readSample fs e.1 maxChars = Some e.2) l ->
            Forall (fun e => e.1 ∈ file :: rest
                             /\ readSample fs e.1 maxChars = Some e.2) l).
  { intros l Hl. eapply Forall_impl; [exact Hl|]. intros e [H1 H2].
    split; [by right|exact H2]. }
  destruct (readSample fs file maxChars) as [sample|] eqn:Hs.
  - destruct (IH (included + 1)) as [IH1 IH2]. split.
    + constructor; [split; [by left|exact Hs]|auto].
    + intros _. simpl. lia.
  - destruct (IH included) as [IH1 IH2]. split; auto.
Qed.

(** While the cap leaves room for all the files, each readable one is
    included: the [break] of the loop is not taken. *)
Lemma excerpts_room files included :
  included + Z.of_nat (List.length files) <= maxFiles ->
  excerpts files included
  = omap (fun file => pair file <$> readSample fs file maxChars) files.
Proof.
  revert included. induction files as [|file rest IH]; intros included H; simpl in *.
  { reflexivity. }
  destruct (Z.geb_spec included maxFiles); [lia|].
  destruct (readSample fs file maxChars) as [sample|]; simpl.
  - f_equal. apply IH. lia.
  - apply IH. lia.
Qed.

(** The array [parts] of a completed scan, from the files walked. *)
Lemma summarize_parts_spec fuel :
  summarize_parts fs dir maxFiles maxChars fuel
  = (files ← walk fs maxFiles fuel dir; Some (parts_of dir (excerpts files 0))).
Proof.
  unfold summarize_parts. destruct (walk fs maxFiles fuel dir) as [files|]; [|reflexivity].
  simpl. rewrite summarize_loop_excerpts. f_equal. unfold parts_of.
  destruct (excerpts files 0) as [|e ex]; simpl; [reflexivity|].
  destruct (Z.eqb_spec (0 + Z.pos (Pos.of_succ_nat (List.length ex))) 0); [lia|].
  by rewrite app_nil_r.
Qed.

End SummarizeFacts.

(** ** Paths *)

Section PathFacts.
Implicit Types p q name : jsstring.

Lemma split_on_cons sep s : exists seg segs, split_on sep s = seg :: segs.
Proof.
  destruct s as [|c s]; simpl; [by eexists _, _|].
  destruct (N.eqb c sep); [by eexists _, _|].
  destruct (split_on sep s); by eexists _, _.
Qed.

Lemma split_on_app sep a b :
  split_on sep (a ++ sep :: b) = split_on sep a ++ split_on sep b.
Proof.
  induction a as [|c a IH]; simpl.
  - by rewrite N.eqb_refl.
  - destruct (N.eqb c sep); [by rewrite IH|].
    rewrite IH. by destruct (split_on_cons sep a) as (seg & segs & ->).
Qed.

Lemma split_on_plain sep s : sep ∉ s -> split_on sep s = [s].
Proof.
  induction s as [|c s IH]; intros H; simpl; [reflexivity|].
  apply not_elem_of_cons in H as [Hc Hs].
  destruct (N.eqb_spec c sep); [congruence|]. by rewrite IH.
Qed.

Lemma segments_app a b : segments (a ++ slash :: b) = segments a ++ segments b.
Proof. unfold segments. by rewrite split_on_app, filter_app. Qed.

Lemma segments_plain name : plain_name name -> segments name = [name].
Proof.
  intros (Hne & Hs & _). unfold segments. rewrite split_on_plain by assumption.
  by rewrite filter_cons_True, filter_nil.
Qed.

(** Joining and splitting plain segments. *)
Lemma join_snoc segs name :
  segs <> [] ->
  JS.join [slash] (segs ++ [name]) = JS.join [slash] segs ++ slash :: name.
Proof.
  induction segs as [|s segs IH]; [done|]. intros _.
  destruct segs as [|s' segs]; [reflexivity|].
  change (JS.join [slash] ((s :: s' :: segs) ++ [name]))
    with (s ++ [slash] ++ JS.join [slash] ((s' :: segs) ++ [name])).
  rewrite IH by done.
  change (JS.join [slash] (s :: s' :: segs))
    with (s ++ [slash] ++ JS.join [slash] (s' :: segs)).
  by rewrite <- !app_assoc.
Qed.

Lemma split_on_join segs :
  segs <> [] -> Forall plain_name segs ->
  split_on slash (JS.join [slash] segs) = segs.
Proof.
  induction segs as [|s segs IH]; [done|]. intros _ Hp.
  apply Forall_cons in Hp as [(_ & Hs & _) Hp].
  destruct segs as [|s' segs]; [by apply split_on_plain|].
  change (JS.join [slash] (s :: s' :: segs))
    with (s ++ slash :: JS.join [slash] (s' :: segs)).
  rewrite split_on_app, IH, split_on_plain by done. reflexivity.
Qed.

Lemma join_plain_cons segs :
  segs <> [] -> Forall plain_name segs ->
  exists c t, JS.join [slash] segs = c :: t.
Proof.
  destruct segs as [|s segs]; [done|]. intros _ Hp.
  apply Forall_cons in Hp as [(Hne & _) _].
  destruct s as [|c s]; [done|].
  destruct segs; simpl; by eexists _, _.
Qed.

Lemma normalize_step_plain b res seg :
  plain_name seg -> normalize_step b res seg = seg :: res.
Proof.
  intros (Hne & _ & Hd & Hdd). unfold normalize_step.
  by rewrite !bool_decide_eq_false_2.
Qed.

Lemma foldl_normalize_plain b segs acc :
  Forall plain_name segs ->
  foldl (normalize_step b) acc segs = rev segs ++ acc.
Proof.
  intros Hp. revert acc. induction Hp as [|s segs Hs _ IH]; intros acc; simpl.
  - reflexivity.
  - rewrite normalize_step_plain by assumption. rewrite IH.
    by rewrite <- app_assoc.
Qed.

Lemma foldl_normalize_empty b lead acc :
  Forall (fun s => s = []) lead -> foldl (normalize_step b) acc lead = acc.
Proof.
  intros Hl. revert acc. induction Hl as [|s lead -> _ IH]; intros acc; simpl.
  - reflexivity.
  - apply IH.
Qed.

(** A path that ends with a plain name has no trailing separator. *)
Lemma endsWith_plain x name :
  plain_name name -> endsWith (x ++ name) [slash] = false.
Proof.
  intros (Hne & Hs & _). apply not_true_is_false. intros He.
  apply endsWith_unit in He as [r Hr].
  destruct (exists_last Hne) as (n' & c & ->).
  rewrite app_assoc in Hr. apply app_inj_tail in Hr as [_ ->].
  apply Hs, elem_of_app. right. left.
Qed.

(** Normalising an absolute path whose segments are empty ones followed by
    plain ones keeps the plain ones, one separator before each. *)
Lemma normalize_absolute rest lead segs :
  split_on slash (slash :: rest) = lead ++ segs ->
  Forall (fun s => s = []) lead ->
  segs <> [] -> Forall plain_name segs ->
  endsWith (slash :: rest) [slash] = false ->
  normalize (slash :: rest) = slash :: JS.join [slash] segs.
Proof.
  intros Hsplit Hlead Hne Hp He. unfold normalize.
  rewrite Hsplit, He, N.eqb_refl. simpl negb.
  rewrite foldl_app, (foldl_normalize_empty _ lead) by assumption.
  rewrite foldl_normalize_plain by assumption.
  rewrite app_nil_r, rev_involutive.
  destruct (join_plain_cons segs Hne Hp) as (c & t & ->).
  simpl. by rewrite app_nil_r.
Qed.

(** [join] on a resolved directory and a plain entry name: the name
    follows the directory and one separator. *)
Lemma join_resolved p name :
  resolved p -> plain_name name ->
  join p name = (if bool_decide (p = [slash]) then slash :: name
                 else p ++ slash :: name)
  /\ resolved (join p name).
Proof.
  intros Hp Hn. pose proof Hn as (Hne & Hs & _).
  destruct name as [|c name0] eqn:En; [done|]. rewrite <- En in *.
  assert (Hj : forall q, join (slash :: q) name
                         = normalize (slash :: q ++ [slash] ++ name)).
  { intros q. by rewrite En. }
  destruct Hp as [->|(segs & Hsne & Hsegs & ->)].
  - assert (Hnorm : normalize (slash :: [] ++ [slash] ++ name) = slash :: name).
    { apply (normalize_absolute _ [[]; []] [name]).
      - simpl. by rewrite split_on_plain.
      - by repeat constructor.
      - done.
      - by apply Forall_singleton.
      - apply (endsWith_plain [slash; slash] name Hn). }
    rewrite (Hj []), Hnorm. split; [reflexivity|].
    right. exists [name]. split; [done|]. split; [by apply Forall_singleton|done].
  - assert (Hnorm : normalize (slash :: JS.join [slash] segs ++ [slash] ++ name)
                    = slash :: JS.join [slash] (segs ++ [name])).
    { apply (normalize_absolute _ [[]] (segs ++ [name])).
      - simpl. f_equal.
        rewrite <- join_snoc by assumption. apply split_on_join.
        + by destruct segs.
        + apply Forall_app. split; [assumption|by apply Forall_singleton].
      - by repeat constructor.
      - by destruct segs.
      - apply Forall_app. split; [assumption|by apply Forall_singleton].
      - replace (slash :: JS.join [slash] segs ++ [slash] ++ name)
          with ((slash :: JS.join [slash] segs ++ [slash]) ++ name)
          by (simpl; by rewrite <- app_assoc).
        by apply endsWith_plain. }
    rewrite Hj, Hnorm.
    destruct (join_plain_cons segs Hsne Hsegs) as (c' & t & Ht).
    rewrite bool_decide_eq_false_2 by (rewrite Ht; discriminate).
    split; [by rewrite join_snoc|].
    right. exists (segs ++ [name]). split; [by destruct segs|].
    split; [|done]. apply Forall_app. split; [assumption|by apply Forall_singleton].
Qed.

Lemma resolved_no_trailing p :
  resolved p -> p <> [slash] -> endsWith p [slash] = false.
Proof.
  intros [->|(segs & Hne & Hp & ->)] Hroot; [done|].
  destruct (exists_last Hne) as (init & last & ->).
  apply Forall_app in Hp as [Hinit Hlast]. rewrite Forall_singleton in Hlast.
  destruct init as [|s init].
  - apply (endsWith_plain [slash] last Hlast).
  - rewrite join_snoc by done.
    replace (slash :: JS.join [slash] (s :: init) ++ slash :: last)
      with ((slash :: JS.join [slash] (s :: init) ++ [slash]) ++ last)
      by (simpl; by rewrite <- app_assoc).
    by apply endsWith_plain.
Qed.

Lemma segments_join p name :
  resolved p -> plain_name name ->
  segments (join p name) = segments p ++ [name].
Proof.
  intros Hp Hn. destruct (join_resolved p name Hp Hn) as [-> _].
  destruct (decide (p = [slash])) as [->|Hne].
  - rewrite bool_decide_eq_true_2 by done.
    change (slash :: name) with ([] ++ slash :: name).
    by rewrite segments_app, (segments_plain name).
  - rewrite bool_decide_eq_false_2 by done.
    by rewrite segments_app, (segments_plain name).
Qed.

Lemma foldl_join_resolved root names :
  resolved root -> Forall plain_name names ->
  resolved (foldl join root names)
  /\ exists t, foldl join root names = root ++ t.
Proof.
  intros Hr Hn. revert root Hr.
  induction Hn as [|n names Hn _ IH]; intros root Hr; simpl.
  - split; [exact Hr|]. exists []. by rewrite app_nil_r.
  - destruct (join_resolved root n Hr Hn) as [Hj Hr'].
    destruct (IH _ Hr') as [Hres [t Ht]]. split; [exact Hres|].
    rewrite Ht, Hj. destruct (decide (root = [slash])) as [->|Hne].
    + rewrite bool_decide_eq_true_2 by done. by exists (n ++ t).
    + rewrite bool_decide_eq_false_2 by done. exists (slash :: n ++ t).
      by rewrite <- app_assoc.
Qed.

(** Below the file-system root the entries follow directly; below any
    other resolved root they follow one separator. *)
Lemma foldl_join_below root n names :
  resolved root -> Forall plain_name (n :: names) ->
  exists rel,
    foldl join root (n :: names)
    = if bool_decide (root = [slash]) then root ++ rel
      else root ++ [slash] ++ rel.
Proof.
  intros Hr Hn. apply Forall_cons in Hn as [Hn Hnames]. simpl.
  destruct (join_resolved root n Hr Hn) as [Hj Hr'].
  destruct (foldl_join_resolved _ names Hr' Hnames) as [_ [t ->]].
  rewrite Hj. exists (n ++ t).
  destruct (decide (root = [slash])) as [->|Hne].
  - by rewrite bool_decide_eq_true_2.
  - rewrite bool_decide_eq_false_2 by done. by rewrite <- app_assoc.
Qed.

Section Reached.
Context (fs : FS) (root : jsstring).

(** A reached directory is the root extended by entry names that were
    listed and are not ignored; below a resolved root, with plain entry
    names, it is a resolved path and the names are its segments below the
    root. *)
Lemma reached_extends p :
  reached fs root p ->
  exists names,
    extends root names p
    /\ Forall (fun n => has DEFAULT_IGNORES n = false) names
    /\ (resolved root -> plain_names fs ->
        resolved p /\ Forall plain_name names
        /\ segments p = segments root ++ names).
Proof.
  induction 1 as [|p dirents name _ (names & Hext & Hign & Hseg) Hr Hn Hi Hd].
  - exists []. split; [reflexivity|]. split; [constructor|].
    intros Hroot _. split; [exact Hroot|]. split; [constructor|].
    by rewrite app_nil_r.
  - exists (names ++ [name]). unfold extends in *. subst p.
    split; [by rewrite foldl_app|].
    split; [apply Forall_app; split; [exact Hign|by constructor]|].
    intros Hroot Hplain. destruct (Hseg Hroot Hplain) as (Hp & Hnames & Hs).
    pose proof (Hplain _ _ _ Hr Hn) as Hname.
    split; [by apply join_resolved|].
    split; [apply Forall_app; split; [exact Hnames|by apply Forall_singleton]|].
    rewrite segments_join, Hs by assumption. by rewrite app_assoc.
Qed.

Lemma yielded_from_extends file :
  yielded_from fs root file ->
  exists names name,
    extends root (names ++ [name]) file
    /\ Forall (fun n => has DEFAULT_IGNORES n = false) (names ++ [name])
    /\ (resolved root -> plain_names fs ->
        Forall plain_name (names ++ [name])
        /\ segments file = segments root ++ names ++ [name]).
Proof.
  intros (p & dirents & Hp & Hr & (name & Hn & Hi & ->) & Hf).
  destruct (reached_extends p Hp) as (names & Hext & Hign & Hseg).
  exists names, name. unfold extends in *. subst p.
  split; [by rewrite foldl_app|].
  split; [apply Forall_app; split; [exact Hign|by constructor]|].
  intros Hroot Hplain. destruct (Hseg Hroot Hplain) as (Hp' & Hnames & Hs).
  pose proof (Hplain _ _ _ Hr Hn) as Hname.
  split; [apply Forall_app; split; [exact Hnames|by apply Forall_singleton]|].
  rewrite segments_join, Hs by assumption. by rewrite app_assoc.
Qed.

End Reached.
End PathFacts.

(** ** Binary classification *)

Section BinaryFacts.
Implicit Types path ext : jsstring.

Lemma BINARY_EXT_no_slash ext : ext ∈ BINARY_EXT -> slash ∉ ext.
Proof.
  unfold BINARY_EXT. rewrite !elem_of_union, !elem_of_singleton.
  intros H. repeat (destruct H as [H| ->]); [subst ext|..];
    match goal with
    | |- ?c ∉ ?l => apply (bool_decide_eq_false_1 (c ∈ l)); reflexivity
    end.
Qed.

(** A suffix that holds a separator is no binary extension. *)
Lemma not_binary_with_slash ext :
  slash ∈ ext -> has BINARY_EXT (toLowerCase ext) = false.
Proof.
  intros Hs. unfold has. apply bool_decide_eq_false. intros Hin.
  apply BINARY_EXT_no_slash in Hin. apply Hin. by apply toLowerCase_slash.
Qed.

Lemma basename_plain path : slash ∉ path -> basename path = path.
Proof.
  intros H. unfold basename. rewrite lastIndexOf_absent by assumption.
  by rewrite slice_from.
Qed.

Lemma basename_split d b : slash ∉ b -> basename (d ++ slash :: b) = b.
Proof.
  intros H. unfold basename. rewrite lastIndexOf_last by assumption.
  rewrite slice_from by lia.
  replace (Z.to_nat (Z.of_nat (List.length d) + 1))
    with (List.length (d ++ [slash])) by (rewrite length_app; simpl; lia).
  change (d ++ slash :: b) with (d ++ [slash] ++ b).
  rewrite app_assoc. apply drop_app_length.
Qed.

(** The extension the source looks up, when the path has a dot. *)
Lemma isBinaryByExt_last_dot pre post :
  dot ∉ post ->
  isBinaryByExt (pre ++ dot :: post)
  = has BINARY_EXT (toLowerCase (dot :: post)).
Proof.
  intros H. unfold isBinaryByExt. rewrite lastIndexOf_last by assumption.
  destruct (Z.ltb_spec (Z.of_nat (List.length pre)) 0); [lia|].
  rewrite slice_from by lia. by rewrite drop_at.
Qed.

Lemma isBinaryByExt_no_dot path : dot ∉ path -> isBinaryByExt path = false.
Proof.
  intros H. unfold isBinaryByExt. by rewrite lastIndexOf_absent.
Qed.

Lemma binary_by_spec_last_dot d b1 b2 :
  basename d = b1 ++ dot :: b2 -> dot ∉ b2 ->
  binary_by_spec d = has BINARY_EXT (toLowerCase (dot :: b2)).
Proof.
  intros Hb H. unfold binary_by_spec, extension. rewrite Hb.
  rewrite lastIndexOf_last by assumption.
  destruct (Z.ltb_spec (Z.of_nat (List.length b1)) 0); [lia|].
  rewrite slice_from by lia. by rewrite drop_at.
Qed.

Lemma binary_by_spec_no_dot path :
  dot ∉ basename path -> binary_by_spec path = false.
Proof.
  intros H. unfold binary_by_spec, extension.
  by rewrite lastIndexOf_absent.
Qed.

(** The source looks for the last dot of the whole path, the specification
    for the last dot of the basename: they classify alike, because no member
    of the set holds a separator. *)
Lemma isBinaryByExt_basename path : isBinaryByExt path = binary_by_spec path.
Proof.
  destruct (decide (slash ∈ path)) as [Hs|Hs].
  2:{ unfold binary_by_spec, extension, isBinaryByExt.
      rewrite basename_plain by assumption.
      by destruct (lastIndexOf path dot <? 0). }
  destruct (split_at_last _ _ Hs) as (d & b & -> & Hb).
  destruct (decide (dot ∈ b)) as [Hd|Hd].
  - destruct (split_at_last _ _ Hd) as (b1 & b2 & -> & Hb2).
    rewrite (binary_by_spec_last_dot _ b1 b2);
      [|by apply basename_split|assumption].
    change (d ++ slash :: b1 ++ dot :: b2) with (d ++ (slash :: b1) ++ dot :: b2).
    rewrite app_assoc. by apply isBinaryByExt_last_dot.
  - rewrite binary_by_spec_no_dot by (by rewrite basename_split).
    destruct (decide (dot ∈ d ++ slash :: b)) as [Hp|Hp];
      [|by apply isBinaryByExt_no_dot].
    destruct (split_at_last _ _ Hp) as (pre & post & Heq & Hpost).
    rewrite Heq, isBinaryByExt_last_dot by assumption.
    apply not_binary_with_slash. right.
    apply app_eq_inv in Heq as [(k & -> & Hk)|(k & -> & Hk)].
    + destruct k as [|c k]; simplify_eq/=.
      apply elem_of_app. right. left.
    + destruct k as [|c k]; simplify_eq/=.
      exfalso. apply Hd, elem_of_app. right. left.
Qed.

End BinaryFacts.

(** ** Whole scans *)

Section ScanFacts.
Context (fs : FS) (dir : jsstring) (maxFiles maxChars : Z).

(** A completed scan is the parts of the excerpts of the walked files. *)
Lemma scan_shape fuel parts :
  summarize_parts fs dir maxFiles maxChars fuel = Some parts ->
  exists files,
    walk fs maxFiles fuel dir = Some files
    /\ parts = parts_of dir (excerpts fs maxFiles maxChars files 0).
Proof.
  rewrite summarize_parts_spec.
  destruct (walk fs maxFiles fuel dir) as [files|]; [|discriminate].
  simpl. intros [= <-]. by exists files.
Qed.

(** On a finite directory tree the scan completes. *)
Lemma scan_completes n :
  depth_le fs n dir = true ->
  exists fuel files,
    walk fs maxFiles fuel dir = Some files
    /\ summarize_parts fs dir maxFiles maxChars fuel
       = Some (parts_of dir (excerpts fs maxFiles maxChars files 0))
    /\ summarizeRepo fs dir maxFiles maxChars fuel
       = Some (JS.join [newline]
                 (parts_of dir (excerpts fs maxFiles maxChars files 0))).
Proof.
  intros Hd. destruct (walk_completes fs maxFiles n dir Hd) as (fuel & files & Hw).
  exists fuel, files. split; [exact Hw|].
  assert (Hp : summarize_parts fs dir maxFiles maxChars fuel
               = Some (parts_of dir (excerpts fs maxFiles maxChars files 0))).
  { rewrite summarize_parts_spec, Hw. reflexivity. }
  split; [exact Hp|]. unfold summarizeRepo. by rewrite Hp.
Qed.

Lemma walk_count fuel files :
  0 <= maxFiles -> walk fs maxFiles fuel dir = Some files ->
  Z.of_nat (List.length files) <= maxFiles.
Proof.
  intros Hm. unfold walk, walk_events.
  destruct (walk_loop fs maxFiles fuel [dir] 0) as [evs|] eqn:Hl; [|discriminate].
  simpl. intros [= <-]. apply walk_loop_cap in Hl; lia.
Qed.

(** The [break] of the assembling loop is never taken on the paths [walk]
    yields: they are at most [maxFiles], so each sampled one is included. *)
Lemma scan_never_breaks fuel files :
  walk fs maxFiles fuel dir = Some files ->
  excerpts fs maxFiles maxChars files 0
  = omap (fun file => pair file <$> readSample fs file maxChars) files.
Proof.
  intros Hw. destruct (Z.le_gt_cases 0 maxFiles) as [Hm|Hm].
  - apply excerpts_room. pose proof (walk_count fuel files Hm Hw). lia.
  - unfold walk, walk_events in Hw. rewrite walk_loop_full in Hw by lia.
    by injection Hw as <-.
Qed.

End ScanFacts.

Lemma walk_dirents_full fs maxFiles current dirents stack count :
  maxFiles <= count ->
  walk_dirents fs maxFiles current dirents stack count = (stack, count, []).
Proof.
  intros H. destruct dirents as [|name rest]; simpl; [reflexivity|].
  destruct (Z.geb_spec count maxFiles); [reflexivity|lia].
Qed.

(** Every directory a run lists is reached from the root, and every path
    it yields is a file entry of a reached directory. *)
Lemma walk_events_reached fs dir maxFiles fuel evs :
  walk_events fs maxFiles fuel dir = Some evs ->
  (forall d, d ∈ listings evs -> reached fs dir d)
  /\ (forall file, file ∈ yields evs -> yielded_from fs dir file).
Proof.
  intros Hw. unfold walk_events in Hw.
  apply (walk_loop_reached fs maxFiles dir) in Hw as [Hl Hy];
    [|constructor; [apply reached_root|constructor]].
  rewrite Forall_forall in Hl, Hy. by split.
Qed.

(** ** The concrete file systems *)

Section FixtureFacts.
Import Fixtures.

Lemma assoc_Some {A} (tbl : list (jsstring * A)) p a :
  assoc tbl p = Some a -> (p, a) ∈ tbl.
Proof.
  induction tbl as [|[q b] tbl IH]; simpl; [discriminate|].
  unfold eqb_path. case_bool_decide as Hq.
  - intros [= ->]. subst q. left.
  - intros H. right. by apply IH.
Qed.

(** In a file system given by tables the entry names are those of the
    table of directories. *)
Lemma table_fs_plain dirs files others :
  Forall (fun d => match d.2 with
                   | Some dirents => Forall plain_name dirents
                   | None => True
                   end) dirs ->
  plain_names (table_fs dirs files others).
Proof.
  intros Hd p dirents name Hr Hn. simpl in Hr.
  destruct (assoc dirs p) as [[ds|]|] eqn:Ha; simpl in Hr; try discriminate.
  injection Hr as ->. apply assoc_Some in Ha.
  rewrite Forall_forall in Hd. specialize (Hd _ Ha). simpl in Hd.
  rewrite Forall_forall in Hd. by apply Hd.
Qed.

Lemma plain_name_lit name :
  bool_decide (name <> []) && bool_decide (slash ∉ name)
  && bool_decide (name <> [dot]) && bool_decide (name <> [dot; dot]) = true ->
  plain_name name.
Proof.
  rewrite !andb_true_iff, !bool_decide_eq_true. intros [[[? ?] ?] ?].
  by repeat split.
Qed.

Lemma build_fs_plain : plain_names build_fs.
Proof.
  apply table_fs_plain. repeat constructor; by apply plain_name_lit.
Qed.

Lemma build_root_resolved : resolved (lit "/srv/build").
Proof.
  right. exists [lit "srv"; lit "build"]. split; [done|].
  split; [|reflexivity]. repeat constructor; by apply plain_name_lit.
Qed.

(** Without an end to the nesting the traversal does not complete: the
    loop uses up any fuel. *)
Lemma endless_walk_runs_out fuel : walk endless_fs 1 fuel (lit "/e") = None.
Proof.
  assert (Hd : has DEFAULT_IGNORES (lit "d") = false) by (vm_compute; reflexivity).
  assert (H : forall p stack,
            walk_loop endless_fs 1 fuel (p :: stack) 0 = None).
  { induction fuel as [|fuel IH]; intros p stack; [reflexivity|].
    rewrite (walk_loop_listed _ _ _ _ _ _ [lit "d"]) by (lia || reflexivity).
    cbn [walk_dirents]. rewrite Hd. simpl. by rewrite IH. }
  unfold walk, walk_events. by rewrite H.
Qed.

End FixtureFacts.

(** ** The claims *)

(** C1 (bounding). With caps that are not negative: the traverser yields at
    most [maxFiles] paths; with the count at the cap it lists no further
    directory and takes no further entry; a completed scan holds at most
    [maxFiles] excerpt blocks, the text of each at most [maxChars] units long;
    and on a finite tree the scan completes. *)
Theorem scan_is_bounded fs dir maxFiles maxChars :
  0 <= maxFiles -> 0 <= maxChars ->
  (forall fuel files,
     walk fs maxFiles fuel dir = Some files ->
     Z.of_nat (List.length files) <= maxFiles)
  /\ (forall fuel stack count,
        maxFiles <= count -> walk_loop fs maxFiles fuel stack count = Some [])
  /\ (forall current dirents stack count,
        maxFiles <= count ->
        walk_dirents fs maxFiles current dirents stack count
        = (stack, count, []))
  /\ (forall fuel parts,
        summarize_parts fs dir maxFiles maxChars fuel = Some parts ->
        exists ex,
          parts = parts_of dir ex
          /\ Z.of_nat (List.length ex) <= maxFiles
          /\ Forall (fun e => JS.length e.2 <= maxChars
                              /\ Z.of_nat (List.length (codepoints e.2))
                                 <= maxChars) ex)
  /\ (forall n, depth_le fs n dir = true ->
        exists fuel summary,
          summarizeRepo fs dir maxFiles maxChars fuel = Some summary).
Proof.
  intros Hf Hc. split; [|split; [|split; [|split]]].
  - intros fuel files. by apply walk_count.
  - intros fuel stack count. apply walk_loop_full.
  - intros current dirents stack count. apply walk_dirents_full.
  - intros fuel parts Hp. apply scan_shape in Hp as (files & Hw & ->).
    exists (excerpts fs maxFiles maxChars files 0). split; [reflexivity|].
    destruct (excerpts_spec fs maxFiles maxChars files 0) as [Hex Hcap].
    split; [lia|]. eapply Forall_impl; [exact Hex|].
    intros [file sample] [_ Hs]. simpl in *. unfold readSample in Hs.
    destruct (isBinaryByExt file); [discriminate|].
    destruct (readText fs file) as [text|]; [|discriminate].
    injection Hs as <-. pose proof (slice_length_le text maxChars Hc) as Hlen.
    split; [exact Hlen|].
    pose proof (codepoints_length (slice text 0 (Some maxChars))).
    unfold JS.length in Hlen. lia.
  - intros n Hd.
    destruct (scan_completes fs dir maxFiles maxChars n Hd) as (fuel & files & _ & _ & H).
    by eexists _, _.
Qed.

Import Fixtures.

Lemma scan_is_bounded_witness :
  0 <= 10 /\ 0 <= 3
  /\ exists parts ex,
       summarize_parts repo_fs (lit "/repo") 10 3 5 = Some parts
       /\ parts = parts_of (lit "/repo") ex
       /\ Z.of_nat (List.length ex) <= 10
       /\ Forall (fun e => JS.length e.2 <= 3
                           /\ Z.of_nat (List.length (codepoints e.2)) <= 3) ex.
Proof.
  split; [lia|]. split; [lia|].
  destruct (scan_is_bounded repo_fs (lit "/repo") 10 3) as (_ & _ & _ & H & _);
    [lia|lia|].
  destruct (summarize_parts repo_fs (lit "/repo") 10 3 5) as [parts|] eqn:Hp;
    [|vm_compute in Hp; discriminate].
  destruct (H _ _ Hp) as (ex & Hex & Hrest). by exists parts, ex.
Defined.

(** The bounds need caps that are not negative: a negative [maxChars] makes
    [slice] count from the end of the text. *)
Example negative_maxChars_counts_from_the_end :
  readSample repo_fs (lit "/repo/a.txt") (-2) = Some (lit "hel").
Proof. vm_compute. reflexivity. Qed.

(** C2 as stated does not hold: the root /srv/build has the ignored name
    build as a segment, and the file main.ts below it is yielded and included
    in the summary, its path holding that segment. *)
Lemma ignored_segment_of_root_yielded :
  walk build_fs 10 5 (lit "/srv/build") = Some [lit "/srv/build/main.ts"]
  /\ segments (lit "/srv/build/main.ts") = [lit "srv"; lit "build"; lit "main.ts"]
  /\ has DEFAULT_IGNORES (lit "build") = true
  /\ summarize_parts build_fs (lit "/srv/build") 10 100 5
     = Some (parts_of (lit "/srv/build")
               [(lit "/srv/build/main.ts", lit "export {}")]).
Proof. repeat split; vm_compute; reflexivity. Qed.

(** C2 (ignore enforcement), amended: the filter applies to the entries of
    a listing, not to the root. An entry whose name is ignored is skipped
    entirely: the loop goes on as if it were not listed. So every directory
    listed and every path yielded is the root extended by entry names none of
    which is ignored, and below a resolved root, with plain entry names,
    these names are exactly the segments of the path below the root: no
    ignored name is a segment below the root, and nothing under an ignored
    directory is visited. *)
Theorem ignored_entries_are_skipped fs dir maxFiles :
  (forall current name rest stack count,
     has DEFAULT_IGNORES name = true ->
     walk_dirents fs maxFiles current (name :: rest) stack count
     = walk_dirents fs maxFiles current rest stack count)
  /\ (forall fuel evs,
        walk_events fs maxFiles fuel dir = Some evs ->
        (forall d, d ∈ listings evs ->
           exists names,
             extends dir names d
             /\ Forall (fun n => has DEFAULT_IGNORES n = false) names
             /\ (resolved dir -> plain_names fs ->
                 segments d = segments dir ++ names))
        /\ (forall file, file ∈ yields evs ->
              exists names name,
                extends dir (names ++ [name]) file
                /\ Forall (fun n => has DEFAULT_IGNORES n = false)
                     (names ++ [name])
                /\ (resolved dir -> plain_names fs ->
                    segments file = segments dir ++ names ++ [name]))).
Proof.
  split.
  - intros current name rest stack count Hign. simpl. rewrite Hign.
    destruct (Z.geb_spec count maxFiles); [|reflexivity].
    by rewrite walk_dirents_full.
  - intros fuel evs Hw. apply walk_events_reached in Hw as [Hl Hy]. split.
    + intros d Hd.
      destruct (reached_extends fs dir d (Hl d Hd)) as (names & He & Hi & Hs).
      exists names. split; [exact He|]. split; [exact Hi|].
      intros Hr Hp. by destruct (Hs Hr Hp) as (_ & _ & ?).
    + intros file Hf.
      destruct (yielded_from_extends fs dir file (Hy file Hf))
        as (names & name & He & Hi & Hs).
      exists names, name. split; [exact He|]. split; [exact Hi|].
      intros Hr Hp. by destruct (Hs Hr Hp) as (_ & ?).
Qed.

Lemma ignored_entries_are_skipped_witness :
  resolved (lit "/srv/build") /\ plain_names build_fs
  /\ exists names name,
       extends (lit "/srv/build") (names ++ [name]) (lit "/srv/build/main.ts")
       /\ Forall (fun n => has DEFAULT_IGNORES n = false) (names ++ [name])
       /\ segments (lit "/srv/build/main.ts")
          = segments (lit "/srv/build") ++ names ++ [name].
Proof.
  split; [exact build_root_resolved|]. split; [exact build_fs_plain|].
  destruct (ignored_entries_are_skipped build_fs (lit "/srv/build") 10)
    as [_ H].
  destruct (H 2%nat [Listed (lit "/srv/build");
                     Yielded (lit "/srv/build/main.ts")])
    as [_ Hy]; [vm_compute; reflexivity|].
  destruct (Hy (lit "/srv/build/main.ts")) as (names & name & He & Hi & Hs);
    [left|].
  exists names, name. split; [exact He|]. split; [exact Hi|].
  exact (Hs build_root_resolved build_fs_plain).
Defined.

(** C3 (binary classification). [isBinaryByExt] classifies a path as the
    specification defines it, by the lowercased extension of the basename;
    a basename without a dot is never binary; any casing of a member of the
    set is binary; a binary path is sampled as absent whatever the file
    system holds there, and is never among the excerpts. *)
Theorem binary_is_by_extension path :
  isBinaryByExt path = binary_by_spec path
  /\ (dot ∉ basename path -> isBinaryByExt path = false)
  /\ (forall pre post,
        path = pre ++ dot :: post -> dot ∉ post ->
        toLowerCase (dot :: post) ∈ BINARY_EXT ->
        isBinaryByExt path = true)
  /\ (forall fs maxChars,
        isBinaryByExt path = true -> readSample fs path maxChars = None)
  /\ (forall fs maxFiles maxChars files included sample,
        (path, sample) ∈ excerpts fs maxFiles maxChars files included ->
        isBinaryByExt path = false).
Proof.
  split; [apply isBinaryByExt_basename|].
  split; [intros H; rewrite isBinaryByExt_basename;
          by apply binary_by_spec_no_dot|].
  split; [|split].
  - intros pre post -> Hd Hin. rewrite isBinaryByExt_last_dot by assumption.
    by apply bool_decide_eq_true.
  - intros fs maxChars Hb. unfold readSample. by rewrite Hb.
  - intros fs maxFiles maxChars files included sample Hin.
    destruct (excerpts_spec fs maxFiles maxChars files included) as [Hex _].
    rewrite Forall_forall in Hex. apply Hex in Hin as [_ Hs]. simpl in Hs.
    unfold readSample in Hs. by destruct (isBinaryByExt path).
Qed.

(** Classification on some paths: the case of the extension does not
    matter, a dot in a directory name does not count, and only the last
    extension does. *)
Example isBinaryByExt_examples :
  isBinaryByExt (lit "/repo/IMG.PnG") = true
  /\ isBinaryByExt (lit "/repo/v1.zip/notes") = false
  /\ isBinaryByExt (lit "/repo/bundle.tar.gz") = true
  /\ isBinaryByExt (lit "/repo/png") = false
  /\ isBinaryByExt (lit "/repo/a.txt") = false.
Proof. repeat split; vm_compute; reflexivity. Qed.

Lemma codepoints_bmp (s : jsstring) :
  Forall (fun u => is_high u = false) s -> codepoints s = s.
Proof.
  induction 1 as [|h s Hh Hs IH]; [reflexivity|].
  destruct s as [|l s]; [reflexivity|].
  change (codepoints (h :: l :: s))
    with (if is_high h && is_low l
          then (65536 + (h - 55296) * 1024 + (l - 56320))%N :: codepoints s
          else h :: codepoints (l :: s)).
  rewrite Hh. simpl andb. cbv iota. by rewrite IH.
Qed.

(** C4 as stated does not hold: the text of smile.txt is the supplementary
    character U+1F600 followed by the letter a. Sampled with maxChars = 1 it
    gives the lone high surrogate of the pair, which is not the first code
    point of the text. *)
Lemma sample_splits_a_surrogate_pair :
  isBinaryByExt (lit "/e/smile.txt") = false
  /\ readText emoji_fs (lit "/e/smile.txt") = Some emoji_text
  /\ codepoints emoji_text = [128512; 97]%N
  /\ readSample emoji_fs (lit "/e/smile.txt") 1 = Some [55357]%N
  /\ codepoints <$> readSample emoji_fs (lit "/e/smile.txt") 1
     <> Some (take 1 (codepoints emoji_text)).
Proof. repeat split; try (vm_compute; reflexivity). vm_compute. discriminate. Qed.

(** C4 (truncation), amended: the sample of a readable file that is not
    binary is the first [maxChars] UTF-16 code units of its decoded text (the
    whole text when it is shorter), counted after decoding and not in bytes.
    For a text without surrogates, units are code points and the sample is
    the first [maxChars] code points. The text hello sampled with 3 gives
    hel. *)
Theorem sample_is_truncated fs file text maxChars :
  isBinaryByExt file = false -> readText fs file = Some text ->
  0 <= maxChars ->
  exists sample,
    readSample fs file maxChars = Some sample
    /\ sample = take (Z.to_nat maxChars) text
    /\ JS.length sample <= maxChars
    /\ (JS.length text <= maxChars -> sample = text)
    /\ (Forall (fun u => is_high u = false) text ->
        codepoints sample = take (Z.to_nat maxChars) (codepoints text))
    /\ (text = lit "hello" -> maxChars = 3 -> sample = lit "hel").
Proof.
  intros Hb Hr Hm. exists (slice text 0 (Some maxChars)).
  unfold readSample. rewrite Hb, Hr. split; [reflexivity|].
  rewrite slice_to by assumption. split; [reflexivity|]. split; [|split; [|split]].
  - unfold JS.length. rewrite length_take. lia.
  - unfold JS.length. intros Hlen. apply firstn_all2. lia.
  - intros Hbmp. rewrite (codepoints_bmp text) by assumption.
    apply codepoints_bmp. by apply Forall_take.
  - intros -> ->. reflexivity.
Qed.

Lemma sample_is_truncated_witness :
  exists sample,
    readSample repo_fs (lit "/repo/a.txt") 3 = Some sample
    /\ sample = take (Z.to_nat 3) (lit "hello")
    /\ JS.length sample <= 3
    /\ (JS.length (lit "hello") <= 3 -> sample = lit "hello")
    /\ (Forall (fun u => is_high u = false) (lit "hello") ->
        codepoints sample = take (Z.to_nat 3) (codepoints (lit "hello")))
    /\ (lit "hello" = lit "hello" -> 3 = 3 -> sample = lit "hel").
Proof.
  apply (sample_is_truncated repo_fs (lit "/repo/a.txt") (lit "hello") 3).
  - vm_compute. reflexivity.
  - vm_compute. reflexivity.
  - lia.
Defined.

(** C5 (fault tolerance). A directory whose listing throws contributes
    nothing and the loop goes on with the rest of the stack; an entry whose
    classification throws is skipped; a file whose reading throws is sampled
    as absent; and whatever throws, on a finite tree the scan completes and
    returns a summary. *)
Theorem failures_are_swallowed fs dir maxFiles maxChars :
  (forall fuel current stack count,
     count < maxFiles -> readdir fs current = None ->
     walk_loop fs maxFiles (S fuel) (current :: stack) count
     = (evs ← walk_loop fs maxFiles fuel stack count;
        Some (Listed current :: evs)))
  /\ (forall current name rest stack count,
        statSync fs (join current name) = None ->
        walk_dirents fs maxFiles current (name :: rest) stack count
        = walk_dirents fs maxFiles current rest stack count)
  /\ (forall file, readText fs file = None ->
        readSample fs file maxChars = None)
  /\ (forall n, depth_le fs n dir = true ->
        exists fuel files,
          walk fs maxFiles fuel dir = Some files
          /\ summarizeRepo fs dir maxFiles maxChars fuel
             = Some (JS.join [newline]
                       (parts_of dir (excerpts fs maxFiles maxChars files 0)))).
Proof.
  split; [|split; [|split]].
  - intros fuel current stack count. apply walk_loop_unlistable.
  - intros current name rest stack count Hs. simpl. rewrite Hs.
    destruct (Z.geb_spec count maxFiles); [by rewrite walk_dirents_full|].
    by destruct (has DEFAULT_IGNORES name).
  - intros file Hr. unfold readSample. rewrite Hr.
    by destruct (isBinaryByExt file).
  - intros n Hd.
    destruct (scan_completes fs dir maxFiles maxChars n Hd)
      as (fuel & files & Hw & _ & Hs).
    by exists fuel, files.
Qed.

(** A scan through failures of every kind: the unlistable directory, the
    vanished entry, the socket and the unreadable file leave no trace, the
    readable file is included. *)
Example faulty_scan :
  depth_le faulty_fs 1 (lit "/w") = true
  /\ walk_events faulty_fs 10 3 (lit "/w")
     = Some [Listed (lit "/w"); Yielded (lit "/w/secret.txt");
             Listed (lit "/w/sub"); Yielded (lit "/w/sub/ok.md");
             Listed (lit "/w/locked")]
  /\ summarize_parts faulty_fs (lit "/w") 10 100 3
     = Some (parts_of (lit "/w") [(lit "/w/sub/ok.md", lit "fine")]).
Proof. repeat split; vm_compute; reflexivity. Qed.

Lemma sentinel_not_header dir : sentinel <> header dir.
Proof. discriminate. Qed.

Lemma sentinel_not_block dir e : sentinel <> excerpt_block dir e.
Proof. discriminate. Qed.

(** The scenario of the specification, and variants with nothing eligible:
    one block for a.txt alone; the sentinel when the only files are ignored
    or binary. *)
Example spec_scenarios :
  summarizeRepo repo_fs (lit "/repo") 10 100 5
  = Some (header (lit "/repo") ++ [newline]
          ++ block (lit "a.txt") (lit "hello"))
  /\ summarizeRepo repo_fs (lit "/repo") 10 3 5
     = Some (header (lit "/repo") ++ [newline]
             ++ block (lit "a.txt") (lit "hel"))
  /\ summarizeRepo repo_fs (lit "/repo/node_modules") 0 100 5
     = Some (header (lit "/repo/node_modules") ++ [newline] ++ sentinel)
  /\ summarizeRepo png_first_fs (lit "/r") 1 100 5
     = Some (header (lit "/r") ++ [newline] ++ sentinel).
Proof. repeat split; vm_compute; reflexivity. Qed.

Lemma startsWith_app (dir rest : jsstring) : startsWith (dir ++ rest) dir = true.
Proof. apply startsWith_prefix. by exists rest. Qed.

Lemma relativePath_app dir rest :
  relativePath dir (dir ++ rest)
  = if endsWith dir [slash] || endsWith dir [backslash] then rest
    else drop 1 rest.
Proof.
  unfold relativePath. rewrite startsWith_app.
  rewrite slice_from
    by (unfold JS.length; destruct (_ || _); lia).
  unfold JS.length. destruct (_ || _).
  - rewrite Z.add_0_r. apply drop_at.
  - replace (Z.to_nat (Z.of_nat (List.length dir) + 1))
      with (List.length dir + 1)%nat by lia.
    by rewrite <- drop_drop, drop_app_length.
Qed.

(** C8 (zero caps). With [maxFiles = 0] the traverser lists nothing and
    yields nothing, on any tree and with any fuel, and the summary is the
    header and the sentinel. With [maxChars = 0] the text of every excerpt of
    a completed scan is empty, and on a finite tree the scan completes. *)
Theorem zero_caps_give_nothing fs dir :
  (forall maxChars fuel,
     walk_events fs 0 fuel dir = Some []
     /\ summarize_parts fs dir 0 maxChars fuel = Some [header dir; sentinel]
     /\ summarizeRepo fs dir 0 maxChars fuel
        = Some (header dir ++ [newline] ++ sentinel))
  /\ (forall maxFiles fuel parts,
        summarize_parts fs dir maxFiles 0 fuel = Some parts ->
        exists ex,
          parts = parts_of dir ex /\ Forall (fun e => e.2 = []) ex)
  /\ (forall maxFiles n,
        depth_le fs n dir = true ->
        exists fuel summary, summarizeRepo fs dir maxFiles 0 fuel = Some summary).
Proof.
  split; [|split].
  - intros maxChars fuel.
    assert (Hw : walk_events fs 0 fuel dir = Some []).
    { apply walk_loop_full. lia. }
    assert (Hp : summarize_parts fs dir 0 maxChars fuel
                 = Some [header dir; sentinel]).
    { unfold summarize_parts, walk. by rewrite Hw. }
    split; [exact Hw|]. split; [exact Hp|].
    unfold summarizeRepo. by rewrite Hp.
  - intros maxFiles fuel parts Hp. apply scan_shape in Hp as (files & _ & ->).
    exists (excerpts fs maxFiles 0 files 0). split; [reflexivity|].
    destruct (excerpts_spec fs maxFiles 0 files 0) as [Hex _].
    eapply Forall_impl; [exact Hex|]. intros [file sample] [_ Hs]. simpl in *.
    unfold readSample in Hs. destruct (isBinaryByExt file); [discriminate|].
    destruct (readText fs file) as [text|]; [|discriminate].
    injection Hs as <-. by rewrite slice_to.
  - intros maxFiles n Hd.
    destruct (scan_completes fs dir maxFiles 0 n Hd) as (fuel & files & _ & _ & H).
    by eexists _, _.
Qed.

(** The first listing of a run is the root's, whatever the root is called,
    and it yields the first eligible entries up to the cap. *)
Lemma walk_events_root fs dir maxFiles dirents fuel evs :
  0 < maxFiles -> readdir fs dir = Some dirents ->
  walk_events fs maxFiles fuel dir = Some evs ->
  exists evs',
    evs = Listed dir
          :: map Yielded (take (Z.to_nat maxFiles) (eligible fs dir dirents))
          ++ evs'.
Proof.
  intros Hm Hr Hw. unfold walk_events in Hw.
  apply walk_loop_inv in Hw
    as [[_ [?|?]]|(f' & cur & st0 & evs' & -> & [= <- <-] & _ & Hbody)];
    [discriminate|lia|].
  destruct Hbody as [(Hr' & _)|(ds & st' & c' & ys & Hr' & Hd & _ & ->)];
    [congruence|].
  rewrite Hr in Hr'. injection Hr' as <-. exists evs'.
  pose proof (walk_dirents_yields fs maxFiles dir dirents [] 0) as Hy.
  rewrite Hd in Hy. simpl in Hy. rewrite Z.sub_0_r in Hy. by rewrite Hy.
Qed.

(** C9 (the root is not filtered). For a root whose own basename is in the
    ignore set, the traverser still lists the root first and yields its
    eligible entries up to the cap; each of them that is sampled is among the
    excerpts; and on a finite tree the traversal completes. *)
Theorem root_is_not_filtered fs dir maxFiles maxChars dirents :
  has DEFAULT_IGNORES (basename dir) = true ->
  0 < maxFiles -> readdir fs dir = Some dirents ->
  (forall fuel evs,
     walk_events fs maxFiles fuel dir = Some evs ->
     exists evs',
       evs = Listed dir
             :: map Yielded (take (Z.to_nat maxFiles) (eligible fs dir dirents))
             ++ evs')
  /\ (forall fuel files file sample,
        walk fs maxFiles fuel dir = Some files ->
        file ∈ take (Z.to_nat maxFiles) (eligible fs dir dirents) ->
        readSample fs file maxChars = Some sample ->
        file ∈ files
        /\ (file, sample) ∈ excerpts fs maxFiles maxChars files 0)
  /\ (forall n, depth_le fs n dir = true ->
        exists fuel files, walk fs maxFiles fuel dir = Some files).
Proof.
  intros _ Hm Hr. split; [|split].
  - intros fuel evs. by apply walk_events_root.
  - intros fuel files file sample Hw Hin Hs.
    assert (Hfile : file ∈ files).
    { unfold walk in Hw.
      destruct (walk_events fs maxFiles fuel dir) as [evs|] eqn:He; [|discriminate].
      injection Hw as <-.
      destruct (walk_events_root _ _ _ _ _ _ Hm Hr He) as [evs' ->].
      change (Listed dir :: ?a ++ evs') with ([Listed dir] ++ a ++ evs').
      rewrite !yields_app, yields_Yielded. simpl.
      apply elem_of_app. by left. }
    split; [exact Hfile|].
    rewrite excerpts_room
      by (pose proof (walk_count fs dir maxFiles fuel files ltac:(lia) Hw); lia).
    apply list_elem_of_omap. exists file. split; [exact Hfile|]. by rewrite Hs.
  - intros n. apply walk_completes.
Qed.

Lemma root_is_not_filtered_witness :
  has DEFAULT_IGNORES (basename (lit "/srv/build")) = true
  /\ walk_events build_fs 10 2 (lit "/srv/build")
     = Some [Listed (lit "/srv/build"); Yielded (lit "/srv/build/main.ts")]
  /\ (lit "/srv/build/main.ts", lit "export {}")
     ∈ excerpts build_fs 10 100 [lit "/srv/build/main.ts"] 0.
Proof.
  assert (Hb : has DEFAULT_IGNORES (basename (lit "/srv/build")) = true)
    by (vm_compute; reflexivity).
  assert (Hw : walk_events build_fs 10 2 (lit "/srv/build")
               = Some [Listed (lit "/srv/build");
                       Yielded (lit "/srv/build/main.ts")])
    by (vm_compute; reflexivity).
  split; [exact Hb|]. split; [exact Hw|].
  destruct (root_is_not_filtered build_fs (lit "/srv/build") 10 100
              [lit "main.ts"; lit "dist"] Hb ltac:(lia) eq_refl)
    as (_ & H & _).
  apply (H 2%nat [lit "/srv/build/main.ts"] (lit "/srv/build/main.ts")
           (lit "export {}")).
  - vm_compute. reflexivity.
  - left.
  - vm_compute. reflexivity.
Defined.

(** The traversal does not look at file contents. *)
Lemma walk_ignores_contents fs contents maxFiles fuel dir :
  walk {| readdir := readdir fs; statSync := statSync fs;
          readText := contents |} maxFiles fuel dir
  = walk fs maxFiles fuel dir.
Proof. reflexivity. Qed.

(** C10 (the budget counts yielded paths). The traverser yields the same
    paths whatever the files contain, and at most [maxFiles] of them, so a
    path that is later skipped has used up a unit of the budget. In the tree
    /r with img.png listed before the readable a.txt, a scan with
    [maxFiles = 1] yields img.png alone, which is skipped as binary: the
    summary has no excerpt block, only the sentinel. *)
Theorem skipped_files_use_the_budget :
  (forall fs contents maxFiles fuel dir,
     walk {| readdir := readdir fs; statSync := statSync fs;
             readText := contents |} maxFiles fuel dir
     = walk fs maxFiles fuel dir)
  /\ (forall fs dir maxFiles fuel files,
        0 <= maxFiles -> walk fs maxFiles fuel dir = Some files ->
        Z.of_nat (List.length files) <= maxFiles)
  /\ exists fs dir dirents file text maxFiles maxChars fuel,
       1 <= maxFiles
       /\ readdir fs dir = Some dirents
       /\ file ∈ eligible fs dir dirents
       /\ readSample fs file maxChars = Some text
       /\ walk fs maxFiles fuel dir = Some [lit "/r/img.png"]
       /\ readSample fs (lit "/r/img.png") maxChars = None
       /\ summarize_parts fs dir maxFiles maxChars fuel
          = Some (parts_of dir [])
       /\ summarizeRepo fs dir maxFiles maxChars fuel
          = Some (header dir ++ [newline] ++ sentinel).
Proof.
  split; [intros; apply walk_ignores_contents|].
  split; [intros fs dir maxFiles fuel files; apply walk_count|].
  exists png_first_fs, (lit "/r"), [lit "img.png"; lit "a.txt"],
    (lit "/r/a.txt"), (lit "hello"), 1, 100, 1%nat.
  split; [lia|]. split; [reflexivity|].
  split; [right; left|].
  repeat split; vm_compute; reflexivity.
Qed.

(** * Further properties of the code *)

(** ** The traversal below its cap *)

Section WalkRoom.
Context (fs : FS) (maxFiles : Z).

(** With room under the cap for all its files, a listing yields every
    eligible file and pushes every subdirectory, the last one on top. *)
Lemma walk_dirents_room current dirents stack count :
  count + Z.of_nat (List.length (eligible fs current dirents)) < maxFiles ->
  walk_dirents fs maxFiles current dirents stack count
  = (rev (subdirs fs current dirents) ++ stack,
     count + Z.of_nat (List.length (eligible fs current dirents)),
     eligible fs current dirents).
Proof.
  revert stack count. unfold eligible, subdirs.
  induction dirents as [|name rest IH]; intros stack count Hroom.
  { simpl. rewrite !filter_nil. simpl. do 2 f_equal. lia. }
  simpl. destruct (Z.geb_spec count maxFiles) as [Hge|Hlt]; [lia|].
  destruct (has DEFAULT_IGNORES name) eqn:Hign.
  { rewrite (filter_cons_False _ name) in * by (by rewrite Hign). by apply IH. }
  rewrite (filter_cons_True _ name) in * by done. simpl map in *.
  destruct (statSync fs (join current name)) as [st|] eqn:Hstat.
  2:{ rewrite !(filter_cons_False _ (join current name)) in *
        by (unfold is_file, is_dir; rewrite Hstat; congruence).
      by apply IH. }
  destruct (isDirectory st) eqn:Hdir.
  { rewrite (filter_cons_False (fun full => is_file fs full = true)) in *
      by (unfold is_file; rewrite Hstat, Hdir; simpl; congruence).
    rewrite (filter_cons_True (fun full => is_dir fs full = true))
      by (unfold is_dir; by rewrite Hstat).
    rewrite IH by assumption. simpl. by rewrite <- app_assoc. }
  rewrite (filter_cons_False (fun full => is_dir fs full = true))
    by (unfold is_dir; rewrite Hstat, Hdir; congruence).
  destruct (isFile st) eqn:Hfile.
  - rewrite (filter_cons_True (fun full => is_file fs full = true)) in *
      by (unfold is_file; by rewrite Hstat, Hdir, Hfile).
    simpl in Hroom. rewrite IH by lia. simpl. do 2 f_equal. lia.
  - rewrite (filter_cons_False (fun full => is_file fs full = true)) in *
      by (unfold is_file; rewrite Hstat, Hdir, Hfile; simpl; congruence).
    by apply IH.
Qed.

(** A listing that ends under the cap had room for all its files. *)
Lemma walk_dirents_under_cap current dirents stack count stack' count' ys :
  walk_dirents fs maxFiles current dirents stack count = (stack', count', ys) ->
  count' < maxFiles ->
  count + Z.of_nat (List.length (eligible fs current dirents)) < maxFiles.
Proof.
  intros Hd Hc.
  pose proof (walk_dirents_spec fs maxFiles current dirents stack count) as Hs.
  pose proof (walk_dirents_yields fs maxFiles current dirents stack count) as Hy.
  rewrite Hd in Hs, Hy. simpl in Hy. destruct Hs as (Hcount & _).
  assert (Hlen : List.length ys
                 = Nat.min (Z.to_nat (maxFiles - count))
                     (List.length (eligible fs current dirents)))
    by (rewrite Hy; apply length_take).
  lia.
Qed.

End WalkRoom.

Lemma elem_of_rev (q : jsstring) (l : list jsstring) : q ∈ l -> q ∈ rev l.
Proof.
  intros H. apply list_elem_of_In. apply -> in_rev. by apply list_elem_of_In.
Qed.

Section WalkComplete.
Context (fs : FS) (maxFiles : Z).

(** A run that ends under the cap has listed every directory of its stack
    and, for every directory it listed, yielded all its eligible files and
    listed all its subdirectories. *)
Lemma walk_loop_complete fuel stack count evs :
  walk_loop fs maxFiles fuel stack count = Some evs ->
  count + Z.of_nat (List.length (yields evs)) < maxFiles ->
  (forall p, p ∈ stack -> p ∈ listings evs)
  /\ (forall p dirents,
        p ∈ listings evs -> readdir fs p = Some dirents ->
        (forall file, file ∈ eligible fs p dirents -> file ∈ yields evs)
        /\ (forall q, q ∈ subdirs fs p dirents -> q ∈ listings evs)).
Proof.
  revert stack count evs.
  induction fuel as [|fuel IH]; intros stack count evs H Hc;
    apply walk_loop_inv in H
      as [[-> Hstop]|(f' & cur & st0 & evs' & Hf & -> & Hlt & Hbody)];
    try discriminate;
    try (destruct Hstop as [->|Hstop]; [|simpl in Hc; lia];
         split; [intros p Hp; by apply elem_of_nil in Hp
                |intros p ds Hp; by apply elem_of_nil in Hp]).
  injection Hf as <-.
  destruct Hbody as [(Hr & Hl & ->)|(ds & st' & c' & ys & Hr & Hd & Hl & ->)].
  - destruct (IH _ _ _ Hl Hc) as [IH1 IH2]. split.
    + intros p Hp. apply elem_of_cons in Hp as [->|Hp]; [left|right; auto].
    + intros p dirents Hp Hrp. apply elem_of_cons in Hp as [->|Hp];
        [congruence|].
      destruct (IH2 p dirents Hp Hrp) as [Hy Hs]. split; [exact Hy|].
      intros q Hq. right. by apply Hs.
  - change (Listed cur :: map Yielded ys ++ evs')
      with ([Listed cur] ++ map Yielded ys ++ evs') in *.
    rewrite !yields_app, yields_Yielded, !length_app in Hc. simpl in Hc.
    rewrite !listings_app, !yields_app, listings_Yielded, yields_Yielded.
    simpl.
    pose proof (walk_dirents_spec fs maxFiles cur ds st0 count) as Hs.
    rewrite Hd in Hs. destruct Hs as (Hcount & _).
    assert (Hroom : count + Z.of_nat (List.length (eligible fs cur ds))
                    < maxFiles)
      by (eapply walk_dirents_under_cap; [exact Hd|lia]).
    rewrite walk_dirents_room in Hd by assumption.
    injection Hd as <- <- <-.
    destruct (IH _ _ _ Hl ltac:(lia)) as [IH1 IH2]. split.
    + intros p Hp. apply elem_of_cons in Hp as [->|Hp]; [left|].
      right. apply IH1, elem_of_app. by right.
    + intros p dirents Hp Hrp. apply elem_of_cons in Hp as [->|Hp].
      * rewrite Hr in Hrp. injection Hrp as <-. split.
        -- intros file Hfile. apply elem_of_app. by left.
        -- intros q Hq. right. apply IH1, elem_of_app. left.
           by apply elem_of_rev.
      * destruct (IH2 p dirents Hp Hrp) as [Hy Hsub]. split.
        -- intros file Hfile. apply elem_of_app. right. by apply Hy.
        -- intros q Hq. right. by apply Hsub.
Qed.

Lemma reached_listed dir evs :
  (dir ∈ listings evs) ->
  (forall p dirents,
     p ∈ listings evs -> readdir fs p = Some dirents ->
     forall q, q ∈ subdirs fs p dirents -> q ∈ listings evs) ->
  forall d, reached fs dir d -> d ∈ listings evs.
Proof.
  intros Hroot Hsub d Hd.
  induction Hd as [|p dirents name _ IH Hr Hn Hi Hq]; [exact Hroot|].
  apply (Hsub p dirents IH Hr). unfold subdirs.
  apply list_elem_of_filter. split; [exact Hq|].
  apply list_elem_of_fmap. exists name. split; [reflexivity|].
  by apply list_elem_of_filter.
Qed.

End WalkComplete.

(** X1. When the traversal ends with fewer than [maxFiles] paths yielded,
    it missed nothing: every directory reachable from the root through
    entries that are not ignored was listed, and every file entry of such a
    directory was yielded. *)
Theorem walk_under_cap_is_complete fs maxFiles fuel dir evs :
  walk_events fs maxFiles fuel dir = Some evs ->
  Z.of_nat (List.length (yields evs)) < maxFiles ->
  (forall d, reached fs dir d -> d ∈ listings evs)
  /\ (forall file, yielded_from fs dir file -> file ∈ yields evs).
Proof.
  intros Hw Hc. unfold walk_events in Hw.
  destruct (walk_loop_complete fs maxFiles fuel [dir] 0 evs Hw ltac:(lia))
    as [Hstack Hlisted].
  assert (Hreach : forall d, reached fs dir d -> d ∈ listings evs).
  { apply reached_listed; [apply Hstack; left|].
    intros p dirents Hp Hr. by destruct (Hlisted p dirents Hp Hr). }
  split; [exact Hreach|].
  intros file (p & dirents & Hp & Hr & (name & Hn & Hi & ->) & Hf).
  destruct (Hlisted p dirents (Hreach p Hp) Hr) as [Hy _]. apply Hy.
  unfold eligible. apply list_elem_of_filter. split; [exact Hf|].
  apply list_elem_of_fmap. exists name. split; [reflexivity|].
  by apply list_elem_of_filter.
Qed.

Lemma walk_under_cap_is_complete_witness :
  lit "/w/sub/ok.md"
  ∈ yields [Listed (lit "/w"); Yielded (lit "/w/secret.txt");
            Listed (lit "/w/sub"); Yielded (lit "/w/sub/ok.md");
            Listed (lit "/w/locked")].
Proof.
  destruct (walk_under_cap_is_complete faulty_fs 10 3 (lit "/w")
              [Listed (lit "/w"); Yielded (lit "/w/secret.txt");
               Listed (lit "/w/sub"); Yielded (lit "/w/sub/ok.md");
               Listed (lit "/w/locked")]) as [_ H].
  - vm_compute. reflexivity.
  - vm_compute. reflexivity.
  - apply H. exists (lit "/w/sub"), [lit "ok.md"].
    split; [|split; [reflexivity|split]].
    + apply (reached_entry faulty_fs (lit "/w") (lit "/w")
               [lit "locked"; lit "gone"; lit "sock"; lit "secret.txt";
                lit "sub"] (lit "sub")).
      * apply reached_root.
      * reflexivity.
      * do 4 right. left.
      * vm_compute. reflexivity.
      * vm_compute. reflexivity.
    + exists (lit "ok.md"). split; [left|]. split; vm_compute; reflexivity.
    + vm_compute. reflexivity.
Defined.

(** X2. The traversal is depth first with a last-in first-out frontier:
    with room under the cap, one iteration on a listed directory yields its
    eligible files in listing order, then goes on with its subdirectories on
    top of the frontier in reverse listing order, so that the directory
    listed next is the subdirectory that was listed last. *)
Theorem walk_is_depth_first_lifo fs maxFiles fuel current stack count dirents evs :
  readdir fs current = Some dirents ->
  count + Z.of_nat (List.length (eligible fs current dirents)) < maxFiles ->
  walk_loop fs maxFiles (S fuel) (current :: stack) count = Some evs ->
  exists evs',
    walk_loop fs maxFiles fuel (rev (subdirs fs current dirents) ++ stack)
      (count + Z.of_nat (List.length (eligible fs current dirents)))
    = Some evs'
    /\ evs = Listed current
             :: map Yielded (eligible fs current dirents) ++ evs'
    /\ (forall before last,
          subdirs fs current dirents = before ++ [last] ->
          exists evs'', evs' = Listed last :: evs'').
Proof.
  intros Hr Hroom Hw.
  rewrite (walk_loop_listed _ _ _ _ _ _ dirents) in Hw by (assumption || lia).
  rewrite walk_dirents_room in Hw by assumption.
  destruct (walk_loop fs maxFiles fuel _ _) as [evs'|] eqn:Hl; [|discriminate].
  injection Hw as <-. exists evs'. split; [reflexivity|]. split; [reflexivity|].
  intros before last Hsub. rewrite Hsub, rev_app_distr in Hl. simpl in Hl.
  apply walk_loop_inv in Hl
    as [[_ [?|?]]|(f' & cur & st0 & evs'' & _ & [= <- <-] & _ & Hbody)];
    [discriminate|lia|].
  destruct Hbody as [(_ & _ & ->)|(ds & st' & c' & ys & _ & _ & _ & ->)];
    by eexists.
Qed.

Lemma walk_is_depth_first_lifo_witness :
  exists evs',
    walk_loop faulty_fs 10 2 [lit "/w/sub"; lit "/w/locked"] 1 = Some evs'
    /\ (forall before last,
          subdirs faulty_fs (lit "/w")
            [lit "locked"; lit "gone"; lit "sock"; lit "secret.txt"; lit "sub"]
          = before ++ [last] ->
          exists evs'', evs' = Listed last :: evs'').
Proof.
  destruct (walk_is_depth_first_lifo faulty_fs 10 2 (lit "/w") [] 0
              [lit "locked"; lit "gone"; lit "sock"; lit "secret.txt"; lit "sub"]
              [Listed (lit "/w"); Yielded (lit "/w/secret.txt");
               Listed (lit "/w/sub"); Yielded (lit "/w/sub/ok.md");
               Listed (lit "/w/locked")])
    as (evs' & Hl & _ & Hlast).
  - reflexivity.
  - vm_compute. reflexivity.
  - vm_compute. reflexivity.
  - exists evs'. split; [exact Hl|exact Hlast].
Defined.

Lemma reached_is_dir fs root d :
  reached fs root d -> d = root \/ is_dir fs d = true.
Proof. destruct 1; [by left|by right]. Qed.

(** X3. The traverser yields regular files only and descends into
    directories only: every path it yields is one [statSync] classified as a
    file and not as a directory, and every directory it lists, the root
    apart, is one [statSync] classified as a directory. An entry that is
    neither (a socket, a device) or that cannot be classified is never yielded
    nor listed. *)
Theorem walk_yields_files_and_lists_directories fs maxFiles fuel dir evs :
  walk_events fs maxFiles fuel dir = Some evs ->
  (forall file, file ∈ yields evs ->
     exists s, statSync fs file = Some s
               /\ isDirectory s = false /\ isFile s = true)
  /\ (forall d, d ∈ listings evs ->
        d = dir
        \/ exists s, statSync fs d = Some s /\ isDirectory s = true).
Proof.
  intros Hw. apply walk_events_reached in Hw as [Hl Hy]. split.
  - intros file Hf. destruct (Hy file Hf) as (_ & _ & _ & _ & _ & Hfile).
    unfold is_file in Hfile.
    destruct (statSync fs file) as [s|]; [|discriminate].
    apply andb_true_iff in Hfile as [Hd Hfl].
    exists s. split; [reflexivity|]. split; [|exact Hfl].
    by destruct (isDirectory s).
  - intros d Hd. destruct (reached_is_dir fs dir d (Hl d Hd)) as [->|Hdir];
      [by left|right].
    unfold is_dir in Hdir. destruct (statSync fs d) as [s|]; [|discriminate].
    by exists s.
Qed.

Lemma walk_yields_files_and_lists_directories_witness :
  (forall file,
     file ∈ [lit "/w/secret.txt"; lit "/w/sub/ok.md"] ->
     exists s, statSync faulty_fs file = Some s
               /\ isDirectory s = false /\ isFile s = true)
  /\ (forall d,
        d ∈ [lit "/w"; lit "/w/sub"; lit "/w/locked"] ->
        d = lit "/w"
        \/ exists s, statSync faulty_fs d = Some s /\ isDirectory s = true).
Proof.
  apply (walk_yields_files_and_lists_directories faulty_fs 10 3 (lit "/w")
           [Listed (lit "/w"); Yielded (lit "/w/secret.txt");
            Listed (lit "/w/sub"); Yielded (lit "/w/sub/ok.md");
            Listed (lit "/w/locked")]).
  vm_compute. reflexivity.
Defined.

(** ** The cap only cuts the sequence of yields *)

Section WalkPrefix.
Context (fs : FS) (m m' : Z).

Lemma walk_loop_prefix fuel stack count evs' :
  m <= m' ->
  walk_loop fs m' fuel stack count = Some evs' ->
  exists evs,
    walk_loop fs m fuel stack count = Some evs
    /\ yields evs = take (Z.to_nat (m - count)) (yields evs').
Proof.
  intros Hm. revert stack count evs'.
  induction fuel as [|fuel IH]; intros stack count evs' H;
    apply walk_loop_inv in H
      as [[-> Hstop]|(f' & cur & st0 & evs0 & Hf & -> & Hlt & Hbody)];
    try discriminate;
    try (exists []; split; [|unfold yields; simpl; by rewrite take_nil];
         destruct Hstop as [->|Hstop];
         [apply walk_loop_nil|apply walk_loop_full; lia]).
  injection Hf as <-.
  destruct (Z.lt_ge_cases count m) as [Hc|Hc].
  2:{ exists []. split; [apply walk_loop_full; lia|].
      replace (Z.to_nat (m - count)) with 0%nat by lia. reflexivity. }
  destruct Hbody as [(Hr & Hl & ->)|(ds & st' & c' & ys & Hr & Hd & Hl & ->)].
  - destruct (IH _ _ _ Hl) as (evs & He & Hy).
    exists (Listed cur :: evs). split; [|exact Hy].
    rewrite walk_loop_unlistable by assumption. by rewrite He.
  - change (Listed cur :: map Yielded ys ++ evs0)
      with ([Listed cur] ++ map Yielded ys ++ evs0).
    rewrite !yields_app, yields_Yielded.
    change (yields [Listed cur]) with (@nil jsstring). rewrite app_nil_l.
    pose proof (walk_dirents_yields fs m' cur ds st0 count) as Hys.
    rewrite Hd in Hys. simpl in Hys.
    destruct (Z.lt_ge_cases
                (count + Z.of_nat (List.length (eligible fs cur ds))) m)
      as [Hroom|Hfull].
    + rewrite walk_dirents_room in Hd by lia. injection Hd as <- <- <-.
      destruct (IH _ _ _ Hl) as (evs & He & Hy).
      exists (Listed cur :: map Yielded (eligible fs cur ds) ++ evs). split.
      * rewrite (walk_loop_listed _ _ _ _ _ _ ds) by assumption.
        rewrite walk_dirents_room by assumption. by rewrite He.
      * change (Listed cur :: map Yielded (eligible fs cur ds) ++ evs)
          with ([Listed cur] ++ map Yielded (eligible fs cur ds) ++ evs).
        rewrite !yields_app, yields_Yielded. simpl. rewrite Hy.
        rewrite take_app, (take_ge (eligible fs cur ds)) by lia. f_equal. f_equal. lia.
    + destruct (walk_dirents fs m cur ds st0 count) as [[stm cm] ysm] eqn:Hdm.
      pose proof (walk_dirents_spec fs m cur ds st0 count) as Hs.
      pose proof (walk_dirents_yields fs m cur ds st0 count) as Hym.
      rewrite Hdm in Hs, Hym. simpl in Hym. destruct Hs as (Hcm & _).
      assert (Hlen : List.length ysm = Z.to_nat (m - count))
        by (rewrite Hym, length_take; lia).
      exists (Listed cur :: map Yielded ysm ++ []). split.
      * rewrite (walk_loop_listed _ _ _ _ _ _ ds) by assumption.
        rewrite Hdm. rewrite walk_loop_full by lia. reflexivity.
      * change (Listed cur :: map Yielded ysm ++ [])
          with ([Listed cur] ++ map Yielded ysm ++ []).
        rewrite !yields_app, yields_Yielded. simpl. rewrite app_nil_r.
        rewrite take_app_le by (rewrite Hys, length_take; lia).
        rewrite Hym, Hys, take_take. f_equal. lia.
Qed.

End WalkPrefix.

(** X4. Lowering the cap cuts the sequence of yielded paths and changes
    nothing else: the paths yielded under a cap are the first ones yielded
    under any larger cap, in the same order, and the smaller traversal
    completes whenever the larger one does. *)
Theorem walk_cap_takes_a_prefix fs m m' fuel dir files' :
  m <= m' ->
  walk fs m' fuel dir = Some files' ->
  walk fs m fuel dir = Some (take (Z.to_nat m) files').
Proof.
  intros Hm. unfold walk, walk_events.
  destruct (walk_loop fs m' fuel [dir] 0) as [evs'|] eqn:Hl; [|discriminate].
  simpl. intros [= <-].
  destruct (walk_loop_prefix fs m m' fuel [dir] 0 evs' Hm Hl) as (evs & -> & Hy).
  simpl. rewrite Hy. by rewrite Z.sub_0_r.
Qed.

Lemma walk_cap_takes_a_prefix_witness :
  walk faulty_fs 1 3 (lit "/w") = Some [lit "/w/secret.txt"].
Proof.
  apply (walk_cap_takes_a_prefix faulty_fs 1 10 3 (lit "/w")
           [lit "/w/secret.txt"; lit "/w/sub/ok.md"]).
  - lia.
  - vm_compute. reflexivity.
Defined.

(** ** The summary *)

Lemma join_cons_concat (sep x : jsstring) (xs : list jsstring) :
  JS.join sep (x :: xs) = x ++ concat (map (app sep) xs).
Proof.
  revert x. induction xs as [|y xs IH]; intros x.
  - simpl. by rewrite app_nil_r.
  - change (JS.join sep (x :: y :: xs)) with (x ++ sep ++ JS.join sep (y :: xs)).
    rewrite IH. simpl. by rewrite <- !app_assoc.
Qed.

Lemma summarize_parts_of_walk fs dir maxFiles maxChars fuel files :
  walk fs maxFiles fuel dir = Some files ->
  summarize_parts fs dir maxFiles maxChars fuel
  = Some (parts_of dir (sampled fs maxChars files)).
Proof.
  intros Hw. rewrite summarize_parts_spec, Hw.
  change (Some (parts_of dir (excerpts fs maxFiles maxChars files 0))
          = Some (parts_of dir (sampled fs maxChars files))).
  by rewrite (scan_never_breaks fs dir maxFiles maxChars fuel files Hw).
Qed.

(** X5. The summary includes every yielded file that has a sample, in the
    order of the traversal: the test [included >= maxFiles] of the assembling
    loop never stops it, since the traverser has already kept to the cap. So
    the excerpts are exactly the yielded files that are neither binary nor
    unreadable, each with the text [readSample] gives. *)
Theorem summary_includes_every_sampled_file fs dir maxFiles maxChars fuel files :
  walk fs maxFiles fuel dir = Some files ->
  excerpts fs maxFiles maxChars files 0 = sampled fs maxChars files
  /\ summarize_parts fs dir maxFiles maxChars fuel
     = Some (parts_of dir (sampled fs maxChars files))
  /\ (forall file sample,
        (file, sample) ∈ sampled fs maxChars files
        <-> file ∈ files /\ readSample fs file maxChars = Some sample).
Proof.
  intros Hw.
  pose proof (scan_never_breaks fs dir maxFiles maxChars fuel files Hw) as He.
  split; [exact He|]. split.
  - by apply summarize_parts_of_walk.
  - intros file sample. unfold sampled. rewrite list_elem_of_omap. split.
    + intros (f & Hf & Hs).
      destruct (readSample fs f maxChars) as [s|] eqn:Hr; [|discriminate].
      simpl in Hs. by injection Hs as -> ->.
    + intros [Hf Hs]. exists file. split; [exact Hf|]. by rewrite Hs.
Qed.

Lemma summary_includes_every_sampled_file_witness :
  summarize_parts faulty_fs (lit "/w") 10 100 3
  = Some (parts_of (lit "/w")
            (sampled faulty_fs 100 [lit "/w/secret.txt"; lit "/w/sub/ok.md"])).
Proof.
  apply (summary_includes_every_sampled_file faulty_fs (lit "/w") 10 100 3
           [lit "/w/secret.txt"; lit "/w/sub/ok.md"]).
  vm_compute. reflexivity.
Defined.

(** X6. The layout of the summary string: the header line [Root: dir],
    then for each excerpt a newline and its block, which itself begins with a
    newline (so a blank line comes before every begin marker), or the
    sentinel on the second line when there is no excerpt. *)
Theorem summary_layout fs dir maxFiles maxChars fuel files :
  walk fs maxFiles fuel dir = Some files ->
  summarizeRepo fs dir maxFiles maxChars fuel
  = Some (lit "Root: " ++ dir
          ++ match sampled fs maxChars files with
             | [] => [newline] ++ sentinel
             | ex =>
                 concat
                   (map (fun e =>
                           [newline; newline] ++ lit "--- BEGIN FILE: "
                           ++ relativePath dir e.1 ++ lit " ---" ++ [newline]
                           ++ e.2 ++ [newline] ++ lit "--- END FILE: "
                           ++ relativePath dir e.1 ++ lit " ---") ex)
             end).
Proof.
  intros Hw.
  assert (Hp : summarize_parts fs dir maxFiles maxChars fuel
               = Some (parts_of dir (sampled fs maxChars files))).
  { by apply summarize_parts_of_walk. }
  unfold summarizeRepo. rewrite Hp.
  change (JS.join [newline] <$> Some (parts_of dir (sampled fs maxChars files)))
    with (Some (JS.join [newline] (parts_of dir (sampled fs maxChars files)))).
  f_equal. unfold parts_of.
  destruct (sampled fs maxChars files) as [|e ex]; [reflexivity|].
  rewrite bool_decide_eq_false_2 by done. rewrite app_nil_r.
  rewrite join_cons_concat. unfold header. rewrite <- app_assoc. do 2 f_equal.
  rewrite map_map. reflexivity.
Qed.

Lemma summary_layout_witness :
  summarizeRepo repo_fs (lit "/repo") 10 100 1
  = Some (lit "Root: " ++ lit "/repo"
          ++ match sampled repo_fs 100 [lit "/repo/a.txt"; lit "/repo/img.png"]
             with
             | [] => [newline] ++ sentinel
             | ex =>
                 concat
                   (map (fun e =>
                           [newline; newline] ++ lit "--- BEGIN FILE: "
                           ++ relativePath (lit "/repo") e.1 ++ lit " ---"
                           ++ [newline] ++ e.2 ++ [newline]
                           ++ lit "--- END FILE: "
                           ++ relativePath (lit "/repo") e.1 ++ lit " ---") ex)
             end).
Proof.
  apply (summary_layout repo_fs (lit "/repo") 10 100 1
           [lit "/repo/a.txt"; lit "/repo/img.png"]).
  vm_compute. reflexivity.
Defined.

(** ** Edge cases of the scan *)

Lemma sentinel_summary fs dir maxFiles maxChars fuel :
  walk_events fs maxFiles fuel dir = Some [] ->
  summarize_parts fs dir maxFiles maxChars fuel = Some [header dir; sentinel]
  /\ summarizeRepo fs dir maxFiles maxChars fuel
     = Some (header dir ++ [newline] ++ sentinel).
Proof.
  intros Hw.
  assert (Hp : summarize_parts fs dir maxFiles maxChars fuel
               = Some [header dir; sentinel]).
  { unfold summarize_parts, walk. by rewrite Hw. }
  split; [exact Hp|]. unfold summarizeRepo. by rewrite Hp.
Qed.

(** X7. A root that cannot be listed (it does not exist, it is a file, it
    is not readable) is not an error for the scan: it is listed once, nothing
    is yielded, and the summary is the header and the sentinel. *)
Theorem unlistable_root_gives_sentinel fs dir maxFiles maxChars fuel :
  readdir fs dir = None -> 0 < maxFiles ->
  walk_events fs maxFiles (S fuel) dir = Some [Listed dir]
  /\ summarizeRepo fs dir maxFiles maxChars (S fuel)
     = Some (lit "Root: " ++ dir ++ [newline] ++ sentinel).
Proof.
  intros Hr Hm.
  assert (Hw : walk_events fs maxFiles (S fuel) dir = Some [Listed dir]).
  { unfold walk_events. rewrite walk_loop_unlistable by (lia || assumption).
    by rewrite walk_loop_nil. }
  split; [exact Hw|].
  assert (Hp : summarize_parts fs dir maxFiles maxChars (S fuel)
               = Some [header dir; sentinel]).
  { unfold summarize_parts, walk. by rewrite Hw. }
  unfold summarizeRepo. rewrite Hp. unfold header.
  change (JS.join [newline] <$> Some [lit "Root: " ++ dir; sentinel])
    with (Some ((lit "Root: " ++ dir) ++ [newline] ++ sentinel)).
  by rewrite <- app_assoc.
Qed.

Lemma unlistable_root_gives_sentinel_witness :
  walk_events repo_fs 10 1 (lit "/repo/a.txt") = Some [Listed (lit "/repo/a.txt")]
  /\ summarizeRepo repo_fs (lit "/repo/a.txt") 10 100 1
     = Some (lit "Root: " ++ lit "/repo/a.txt" ++ [newline] ++ sentinel).
Proof.
  apply (unlistable_root_gives_sentinel repo_fs (lit "/repo/a.txt") 10 100 0).
  - vm_compute. reflexivity.
  - lia.
Defined.

(** X8. A cap [maxFiles] that is zero or negative is not an error either:
    the file system is not touched (nothing is listed, nothing yielded), on
    any tree and with any fuel, and the summary is the header and the
    sentinel. *)
Theorem nonpositive_maxFiles_gives_sentinel fs dir maxFiles maxChars fuel :
  maxFiles <= 0 ->
  walk_events fs maxFiles fuel dir = Some []
  /\ summarizeRepo fs dir maxFiles maxChars fuel
     = Some (header dir ++ [newline] ++ sentinel).
Proof.
  intros Hm.
  assert (Hw : walk_events fs maxFiles fuel dir = Some [])
    by (apply walk_loop_full; lia).
  split; [exact Hw|]. by apply sentinel_summary.
Qed.

Lemma nonpositive_maxFiles_gives_sentinel_witness :
  walk_events endless_fs (-3) 0 (lit "/e") = Some []
  /\ summarizeRepo endless_fs (lit "/e") (-3) 100 0
     = Some (header (lit "/e") ++ [newline] ++ sentinel).
Proof.
  apply (nonpositive_maxFiles_gives_sentinel endless_fs (lit "/e") (-3) 100 0).
  lia.
Defined.

Lemma slice_to_negative (s : jsstring) m :
  m < 0 ->
  slice s 0 (Some m) = take (Z.to_nat (JS.length s + m)) s.
Proof.
  intros Hm. unfold slice, clamp, JS.length.
  replace (0 <? 0) with false by reflexivity.
  destruct (Z.ltb_spec m 0); [|lia].
  rewrite (Z.min_l 0) by lia. rewrite Z.sub_0_r.
  change (drop (Z.to_nat 0) s) with s.
  destruct (Z.max_spec (Z.of_nat (List.length s) + m) 0) as [[Hlt ->]|[Hge ->]].
  - replace (Z.to_nat (Z.of_nat (List.length s) + m)) with 0%nat by lia.
    reflexivity.
  - reflexivity.
Qed.

(** X9. A negative [maxChars] does not give an empty sample: [slice]
    counts a negative end from the end of the text, so the sample is the text
    without its last [-maxChars] code units (empty when the text has no more
    than that). Its length is then not bounded by [maxChars]. *)
Theorem negative_maxChars_cuts_the_end fs file text maxChars :
  isBinaryByExt file = false -> readText fs file = Some text ->
  maxChars < 0 ->
  readSample fs file maxChars
  = Some (take (Z.to_nat (JS.length text + maxChars)) text)
  /\ (forall body tail,
        text = body ++ tail -> JS.length tail = - maxChars ->
        readSample fs file maxChars = Some body)
  /\ (JS.length text <= - maxChars -> readSample fs file maxChars = Some []).
Proof.
  intros Hb Hr Hm.
  assert (Hs : readSample fs file maxChars
               = Some (take (Z.to_nat (JS.length text + maxChars)) text)).
  { unfold readSample. rewrite Hb, Hr. by rewrite slice_to_negative. }
  split; [exact Hs|]. split.
  - intros body tail -> Ht. rewrite Hs. f_equal.
    unfold JS.length in *. rewrite length_app.
    replace (Z.to_nat (Z.of_nat (List.length body + List.length tail) + maxChars))
      with (List.length body) by lia.
    apply take_app_length.
  - intros Hl. rewrite Hs. f_equal. unfold JS.length in *.
    replace (Z.to_nat (Z.of_nat (List.length text) + maxChars))
      with 0%nat by lia.
    reflexivity.
Qed.

Lemma negative_maxChars_cuts_the_end_witness :
  readSample repo_fs (lit "/repo/a.txt") (-2) = Some (lit "hel").
Proof.
  destruct (negative_maxChars_cuts_the_end repo_fs (lit "/repo/a.txt")
              (lit "hello") (-2)) as (_ & H & _).
  - vm_compute. reflexivity.
  - vm_compute. reflexivity.
  - lia.
  - apply (H (lit "hel") (lit "lo")); reflexivity.
Defined.

(** ** Binary classification as a suffix test *)

Lemma BINARY_EXT_shape ext :
  ext ∈ BINARY_EXT -> exists rest, ext = dot :: rest /\ dot ∉ rest.
Proof.
  unfold BINARY_EXT. rewrite !elem_of_union, !elem_of_singleton.
  intros H. repeat (destruct H as [H| ->]); [subst ext|..];
    (eexists; split; [reflexivity|]);
    match goal with
    | |- ?c ∉ ?l => apply (bool_decide_eq_false_1 (c ∈ l)); reflexivity
    end.
Qed.

Lemma lower_unit_dot u : lower_unit u = dot <-> u = dot.
Proof.
  unfold lower_unit, dot. split; [|by intros ->].
  destruct ((65 <=? u)%N && (u <=? 90)%N) eqn:E.
  - apply andb_true_iff in E as [H1 H2].
    apply N.leb_le in H1. apply N.leb_le in H2. lia.
  - destruct (N.eqb_spec u 8490); [discriminate|done].
Qed.

Lemma toLowerCase_dot (s : jsstring) : dot ∈ s -> dot ∈ toLowerCase s.
Proof.
  intros H. unfold toLowerCase. apply list_elem_of_fmap.
  exists dot. split; [reflexivity|assumption].
Qed.

(** X10. [isBinaryByExt] is a suffix test up to case: a path is binary
    exactly when it ends with a string whose lower case is a member of
    BINARY_EXT. This holds whatever comes before the suffix, so a file whose
    whole name is an extension, such as .bin in any directory, is binary. *)
Theorem binary_iff_extension_suffix path :
  isBinaryByExt path = true
  <-> exists pre ext, path = pre ++ ext /\ toLowerCase ext ∈ BINARY_EXT.
Proof.
  split.
  - intros Hb. destruct (decide (dot ∈ path)) as [Hd|Hd].
    2:{ rewrite isBinaryByExt_no_dot in Hb by assumption. discriminate. }
    destruct (split_at_last _ _ Hd) as (pre & post & -> & Hpost).
    rewrite isBinaryByExt_last_dot in Hb by assumption.
    exists pre, (dot :: post). split; [reflexivity|].
    by apply bool_decide_eq_true in Hb.
  - intros (pre & ext & -> & Hin).
    destruct (BINARY_EXT_shape _ Hin) as (rest & Hl & Hrest).
    destruct ext as [|u post]; [discriminate|].
    simpl in Hl. injection Hl as Hu Hp. apply lower_unit_dot in Hu as ->.
    assert (Hpost : dot ∉ post).
    { intros Hd. apply Hrest. rewrite <- Hp. by apply toLowerCase_dot. }
    rewrite isBinaryByExt_last_dot by assumption.
    by apply bool_decide_eq_true.
Qed.

(** The suffix test at work: a bare extension is a binary name, and a name
    that only holds an extension is not. *)
Example isBinaryByExt_edge_names :
  isBinaryByExt (lit "/repo/.bin") = true
  /\ isBinaryByExt (lit "/repo/.PNG") = true
  /\ isBinaryByExt (lit "/repo/photo.png.txt") = false
  /\ isBinaryByExt (lit "/repo/photo.png.") = false
  /\ isBinaryByExt (lit "/repo/.gitignore") = false.
Proof. repeat split; vm_compute; reflexivity. Qed.

(** ** buildPrompt *)

Section TrimFacts.
Implicit Types s t : jsstring.

Lemma trimStart_lead s :
  exists lead, s = lead ++ trimStart s /\ blank lead.
Proof.
  induction s as [|c s (lead & Hs & Hl)]; simpl.
  - exists []. split; [reflexivity|constructor].
  - destruct (is_space c) eqn:Hc.
    + exists (c :: lead). split; [by rewrite Hs at 1|by constructor].
    + exists []. split; [reflexivity|constructor].
Qed.

Lemma trimStart_head s c rest :
  trimStart s = c :: rest -> is_space c = false.
Proof.
  induction s as [|x s IH]; simpl; [discriminate|].
  destruct (is_space x) eqn:Hx; [exact IH|]. by intros [= <- _].
Qed.

Lemma trimStart_blank s : trimStart s = [] <-> blank s.
Proof.
  induction s as [|x s IH]; simpl; [by split; [constructor|]|].
  destruct (is_space x) eqn:Hx.
  - rewrite IH. split; [by constructor|]. by intros [_ ?]%Forall_cons.
  - split; [discriminate|]. intros [? _]%Forall_cons. congruence.
Qed.

Lemma trimStart_fixed s :
  (forall c rest, s = c :: rest -> is_space c = false) -> trimStart s = s.
Proof.
  destruct s as [|c s]; [reflexivity|]. intros H. simpl.
  by rewrite (H c s eq_refl).
Qed.

Lemma blank_rev s : blank s <-> blank (rev s).
Proof.
  unfold blank. rewrite !Forall_forall. split; intros H u Hu; apply H.
  - apply list_elem_of_In. apply in_rev. by apply list_elem_of_In.
  - apply list_elem_of_In. apply -> in_rev. by apply list_elem_of_In.
Qed.

Lemma trimEnd_trail s : exists trail, s = trimEnd s ++ trail /\ blank trail.
Proof.
  destruct (trimStart_lead (rev s)) as (lead & Hs & Hl).
  exists (rev lead). split; [|by apply blank_rev in Hl].
  unfold trimEnd. rewrite <- rev_app_distr, <- Hs. by rewrite rev_involutive.
Qed.

Lemma trimEnd_last s init c :
  trimEnd s = init ++ [c] -> is_space c = false.
Proof.
  unfold trimEnd. intros H. apply (f_equal (@rev N)) in H.
  rewrite rev_involutive, rev_app_distr in H. simpl in H.
  by apply trimStart_head in H.
Qed.

Lemma trimEnd_blank s : trimEnd s = [] <-> blank s.
Proof.
  unfold trimEnd. rewrite (blank_rev s), <- trimStart_blank. split.
  - intros H. apply (f_equal (@rev N)) in H. by rewrite rev_involutive in H.
  - by intros ->.
Qed.

Lemma trimEnd_head s c rest :
  s = c :: rest -> is_space c = false ->
  exists rest', trimEnd s = c :: rest'.
Proof.
  intros -> Hc. destruct (trimEnd_trail (c :: rest)) as (trail & Hs & _).
  destruct (trimEnd (c :: rest)) as [|c' rest'] eqn:He.
  - apply trimEnd_blank in He. apply Forall_cons in He as [? _]. congruence.
  - injection Hs as -> _. by exists rest'.
Qed.

Lemma trimEnd_fixed s :
  (forall init c, s = init ++ [c] -> is_space c = false) -> trimEnd s = s.
Proof.
  intros H. unfold trimEnd. rewrite trimStart_fixed; [apply rev_involutive|].
  intros c rest Hr. apply (H (rev rest) c).
  rewrite <- (rev_involutive s), Hr. reflexivity.
Qed.

Lemma trim_head s c rest : trim s = c :: rest -> is_space c = false.
Proof.
  unfold trim. intros H.
  destruct (trimStart s) as [|x t] eqn:Ht; [discriminate|].
  pose proof (trimStart_head _ _ _ Ht) as Hx.
  destruct (trimEnd_head (x :: t) x t eq_refl Hx) as (rest' & He).
  rewrite He in H. by injection H as <- _.
Qed.

Lemma trim_last s init c : trim s = init ++ [c] -> is_space c = false.
Proof. apply trimEnd_last. Qed.

Lemma trim_parts s :
  exists lead trail, s = lead ++ trim s ++ trail /\ blank lead /\ blank trail.
Proof.
  destruct (trimStart_lead s) as (lead & Hs & Hl).
  destruct (trimEnd_trail (trimStart s)) as (trail & Ht & Htr).
  exists lead, trail. split; [|by split]. unfold trim. by rewrite <- Ht.
Qed.

Lemma trim_blank s : trim s = [] <-> blank s.
Proof.
  unfold trim. rewrite trimEnd_blank. split.
  - intros Hb. destruct (trimStart_lead s) as (lead & Hs & Hl).
    rewrite Hs. by apply Forall_app.
  - intros Hb. apply trimStart_blank in Hb. rewrite Hb. constructor.
Qed.

Lemma trim_idempotent s : trim (trim s) = trim s.
Proof.
  unfold trim at 1. rewrite (trimStart_fixed (trim s)).
  - apply trimEnd_fixed. apply trim_last.
  - apply trim_head.
Qed.

End TrimFacts.

Lemma buildPrompt_focus summary q :
  ~ blank q ->
  buildPrompt summary (Some q)
  = base summary ++ [newline] ++ lit "User focus: " ++ trim q.
Proof.
  intros Hq. unfold buildPrompt.
  assert (Hne : q <> []) by (intros ->; apply Hq; constructor).
  assert (Ht : trim q <> []) by (by rewrite trim_blank).
  rewrite bool_decide_eq_false_2 by assumption.
  destruct (trim q) as [|c t] eqn:E; [done|].
  unfold JS.length. simpl List.length.
  destruct (Z.gtb_spec (Z.of_nat (S (List.length t))) 0); [reflexivity|lia].
Qed.

Lemma buildPrompt_blank summary q :
  blank q -> buildPrompt summary (Some q) = base summary.
Proof.
  intros Hq. unfold buildPrompt. apply trim_blank in Hq. rewrite Hq.
  by rewrite andb_false_r.
Qed.

(** X11. The focus line is left out exactly when there is nothing to
    focus on: with no user prompt, an empty one or one of white space only,
    the prompt is the fixed preamble, the summary and a newline; and a user
    prompt that is not blank always changes the prompt. *)
Theorem blank_focus_is_left_out summary :
  buildPrompt summary None = preamble ++ summary ++ [newline]
  /\ buildPrompt summary (Some []) = preamble ++ summary ++ [newline]
  /\ (forall q,
        buildPrompt summary (Some q) = buildPrompt summary None <-> blank q).
Proof.
  split; [reflexivity|]. split; [reflexivity|].
  intros q. split.
  - intros H. destruct (decide (blank q)) as [Hb|Hb]; [exact Hb|exfalso].
    rewrite buildPrompt_focus in H by assumption.
    change (buildPrompt summary None) with (base summary) in H.
    rewrite <- (app_nil_r (base summary)) in H at 2.
    apply app_inv_head in H. discriminate.
  - apply buildPrompt_blank.
Qed.

(** X12. A user prompt that is not blank is appended, trimmed, after the
    summary as a line [User focus: ...] set off by an empty line. Only the
    trimmed text matters: white space around it is lost and nothing else is,
    the focus text begins and ends with units that are not white space, and
    the prompt is the same as for the trimmed text. *)
Theorem focus_is_appended_trimmed summary q :
  ~ blank q ->
  buildPrompt summary (Some q)
  = preamble ++ summary ++ [newline; newline] ++ lit "User focus: " ++ trim q
  /\ (exists lead trail,
        q = lead ++ trim q ++ trail /\ blank lead /\ blank trail)
  /\ (forall c rest, trim q = c :: rest -> is_space c = false)
  /\ (forall init c, trim q = init ++ [c] -> is_space c = false)
  /\ buildPrompt summary (Some (trim q)) = buildPrompt summary (Some q).
Proof.
  intros Hq. split; [|split; [|split; [|split]]].
  - rewrite buildPrompt_focus by assumption. unfold base.
    by rewrite <- !app_assoc.
  - apply trim_parts.
  - apply trim_head.
  - apply trim_last.
  - assert (Ht : ~ blank (trim q)).
    { intros Hb. apply Hq. apply trim_blank. apply trim_blank in Hb.
      by rewrite trim_idempotent in Hb. }
    rewrite !buildPrompt_focus by assumption. by rewrite trim_idempotent.
Qed.

Lemma focus_is_appended_trimmed_witness :
  buildPrompt (lit "Root: /x") (Some (lit "  dead code "))
  = preamble ++ lit "Root: /x" ++ [newline; newline] ++ lit "User focus: "
    ++ lit "dead code".
Proof.
  destruct (focus_is_appended_trimmed (lit "Root: /x") (lit "  dead code "))
    as [H _].
  - intros Hb. apply trim_blank in Hb. vm_compute in Hb. discriminate.
  - rewrite H. vm_compute. reflexivity.
Defined.

(** ** The directory of the report file *)

Lemma outDir_backslash d rest :
  backslash ∉ rest -> outDir (d ++ backslash :: rest) = d.
Proof.
  intros H. unfold outDir. rewrite lastIndexOf_last by assumption.
  destruct (Z.gtb_spec (Z.of_nat (List.length d)) (-1)); [|lia].
  rewrite slice_to by lia. rewrite Nat2Z.id. apply take_app_length.
Qed.

Lemma outDir_slash d name :
  backslash ∉ d ++ slash :: name -> slash ∉ name ->
  outDir (d ++ slash :: name) = d.
Proof.
  intros Hb Hs. unfold outDir. rewrite (lastIndexOf_absent _ backslash Hb).
  replace (-1 >? -1) with false by reflexivity.
  rewrite lastIndexOf_last by assumption.
  rewrite slice_to by lia. rewrite Nat2Z.id. apply take_app_length.
Qed.

Lemma last_slash_unique (d name d' name' : jsstring) :
  d ++ slash :: name = d' ++ slash :: name' ->
  slash ∉ name -> slash ∉ name' -> d = d'.
Proof.
  intros Heq Hn Hn'.
  pose proof (lastIndexOf_last d name slash Hn) as H1.
  pose proof (lastIndexOf_last d' name' slash Hn') as H2.
  rewrite Heq, H2 in H1.
  apply (f_equal (take (List.length d))) in Heq.
  rewrite take_app_length in Heq.
  replace (List.length d) with (List.length d') in Heq by lia.
  by rewrite take_app_length in Heq.
Qed.

(** X13. For a report path without backslash, the directory that [main]
    creates when it is missing is the parent of the report file: the path up
    to its last slash, so that the path is this directory, a slash and the
    file name. For a file directly under the file-system root it is the empty
    string, for which [main] creates nothing. *)
Theorem outDir_is_the_parent outPath :
  backslash ∉ outPath -> slash ∈ outPath ->
  exists name,
    outPath = outDir outPath ++ slash :: name
    /\ (slash ∉ name)
    /\ (forall d name',
          outPath = d ++ slash :: name' -> slash ∉ name' ->
          outDir outPath = d)
    /\ (forall name', outPath = slash :: name' -> slash ∉ name' ->
          outDir outPath = []).
Proof.
  intros Hb Hs. destruct (split_at_last _ _ Hs) as (d & name & -> & Hn).
  exists name. rewrite outDir_slash by assumption.
  split; [reflexivity|]. split; [exact Hn|]. split.
  - intros d' name' Heq Hn'. by apply (last_slash_unique d name d' name').
  - intros name' Heq Hn'. by apply (last_slash_unique d name [] name').
Qed.

Lemma outDir_is_the_parent_witness :
  exists name,
    lit "/srv/out/report.md" = outDir (lit "/srv/out/report.md") ++ slash :: name
    /\ slash ∉ name.
Proof.
  destruct (outDir_is_the_parent (lit "/srv/out/report.md"))
    as (name & H1 & H2 & _).
  - apply (bool_decide_eq_false_1 (backslash ∈ lit "/srv/out/report.md")).
    reflexivity.
  - do 8 right. left.
  - by exists name.
Defined.

(** X14. A backslash in the report path takes precedence over any slash:
    the directory is the path up to its last backslash, also when a slash
    comes after it. And for a path with neither separator the directory is
    the path without its last code unit, since [slice] is then given the end
    -1. *)
Theorem outDir_prefers_backslash outPath :
  (forall d rest,
     outPath = d ++ backslash :: rest -> backslash ∉ rest ->
     outDir outPath = d)
  /\ (backslash ∉ outPath -> slash ∉ outPath ->
      outDir outPath = take (List.length outPath - 1) outPath).
Proof.
  split.
  - intros d rest -> H. by apply outDir_backslash.
  - intros Hb Hs. unfold outDir.
    rewrite (lastIndexOf_absent _ backslash Hb), (lastIndexOf_absent _ slash Hs).
    replace (-1 >? -1) with false by reflexivity.
    rewrite slice_to_negative by lia. f_equal. unfold JS.length. lia.
Qed.

(** Report paths: a usual one, one under the root, one with a backslash in
    a file name, one with no separator. *)
Example outDir_examples :
  outDir (lit "/srv/out/report.md") = lit "/srv/out"
  /\ outDir (lit "/report.md") = []
  /\ outDir (lit "/srv/a\b/report.md") = lit "/srv/a"
  /\ outDir (lit "report.md") = lit "report.m".
Proof. repeat split; vm_compute; reflexivity. Qed.

(** ** parseArgs *)

Section ParseArgsFacts.
Context (Number : option jsstring -> number)
        (resolve : jsstring -> jsstring)
        (cwd : jsstring).

Local Abbreviation loop := (parse_loop Number resolve).
Local Abbreviation parse := (parseArgs Number resolve cwd).

Lemma value_flag_takes_value a :
  takes_value a = true <-> exists set, value_flag Number resolve a = Some set.
Proof.
  clear cwd. unfold takes_value, value_flag, named. simpl map.
  rewrite bool_decide_eq_true, !elem_of_cons, elem_of_nil. split.
  - intros Hin.
    repeat (destruct Hin as [->|Hin]; [by eexists|]). done.
  - intros [set Hs].
    repeat case_bool_decide; simpl in Hs; try discriminate; tauto.
Qed.

(** Induction along the loop, which goes on after the argument or after
    the value that follows it. *)
Lemma args_ind (P : list jsstring -> Prop) :
  P [] ->
  (forall a rest,
     P rest -> (forall v rest', rest = v :: rest' -> P rest') -> P (a :: rest)) ->
  forall args, P args.
Proof.
  intros Hnil Hcons args.
  assert (H : P args /\ (forall v rest', args = v :: rest' -> P rest')).
  { induction args as [|a args [IH1 IH2]].
    - split; [exact Hnil|discriminate].
    - split; [by apply Hcons|]. by intros v rest' [= _ <-]. }
  apply H.
Qed.

Lemma asks_help_no_value a : asks_help a = true -> takes_value a = false.
Proof.
  unfold asks_help, named. intros H. apply orb_true_iff in H as [H|H];
    apply bool_decide_eq_true in H; subst a; reflexivity.
Qed.

Lemma value_flag_None a :
  takes_value a = false -> value_flag Number resolve a = None.
Proof.
  intros H. destruct (value_flag Number resolve a) as [set|] eqn:E; [|done].
  assert (takes_value a = true) by (apply value_flag_takes_value; eauto).
  congruence.
Qed.

(** The equations of the loop. *)
Lemma parse_loop_cons a rest o :
  loop (a :: rest) o
  = match value_flag Number resolve a with
    | Some set =>
        match rest with
        | v :: rest' => loop rest' (set (Some v) o)
        | [] => Parsed (set None o)
        end
    | None =>
        if asks_help a then Exit0
        else if negb (startsWith a (lit "-"))
        then loop rest (positional resolve a o)
        else loop rest o
    end.
Proof. reflexivity. Qed.

Lemma parse_loop_value a set v rest o :
  value_flag Number resolve a = Some set ->
  loop (a :: v :: rest) o = loop rest (set (Some v) o).
Proof. intros H. by rewrite parse_loop_cons, H. Qed.

Lemma parse_loop_dangling a set o :
  value_flag Number resolve a = Some set ->
  loop [a] o = Parsed (set None o).
Proof. intros H. by rewrite parse_loop_cons, H. Qed.

Lemma parse_loop_help a rest o :
  asks_help a = true -> loop (a :: rest) o = Exit0.
Proof.
  intros H. rewrite parse_loop_cons.
  rewrite (value_flag_None a) by (by apply asks_help_no_value).
  by rewrite H.
Qed.

Lemma parse_loop_plain a rest o :
  takes_value a = false -> asks_help a = false ->
  loop (a :: rest) o
  = loop rest
      (if startsWith a (lit "-") then o else positional resolve a o).
Proof.
  intros Hv Hh. rewrite parse_loop_cons, (value_flag_None a Hv), Hh.
  by destruct (startsWith a (lit "-")).
Qed.

(** What every step of the loop keeps, the loop keeps. *)
Lemma parse_loop_preserves (I : Options -> Prop) args :
  (forall a set v o,
     a ∈ args -> value_flag Number resolve a = Some set -> I o -> I (set v o)) ->
  (forall a o,
     a ∈ args -> takes_value a = false -> startsWith a (lit "-") = false ->
     I o -> I (positional resolve a o)) ->
  forall o o', I o -> loop args o = Parsed o' -> I o'.
Proof.
  induction args as [|a rest IH1 IH2] using args_ind;
    intros Hset Hpos o o' Ho Hp.
  { simpl in Hp. by injection Hp as <-. }
  destruct (takes_value a) eqn:Hv.
  - apply value_flag_takes_value in Hv as [set Hs].
    destruct rest as [|v rest'].
    + rewrite (parse_loop_dangling a set) in Hp by assumption.
      injection Hp as <-. apply (Hset a); [left|assumption|assumption].
    + rewrite (parse_loop_value a set) in Hp by assumption.
      apply (IH2 v rest' eq_refl) with (o := set (Some v) o); [| | |exact Hp].
      * intros b s' w p Hb. apply Hset. by do 2 right.
      * intros b p Hb. apply Hpos. by do 2 right.
      * apply (Hset a); [left|assumption|assumption].
  - destruct (asks_help a) eqn:Hh.
    { rewrite parse_loop_help in Hp by assumption. discriminate. }
    rewrite parse_loop_plain in Hp by assumption.
    apply IH1 with (o := if startsWith a (lit "-") then o
                         else positional resolve a o); [| | |exact Hp].
    + intros b s' w p Hb. apply Hset. by right.
    + intros b p Hb. apply Hpos. by right.
    + destruct (startsWith a (lit "-")) eqn:Hd; [exact Ho|].
      apply Hpos; [left|assumption|assumption|assumption].
Qed.

Lemma named_eq a flag : named a flag = true -> a = lit flag.
Proof. apply bool_decide_eq_true. Qed.

Lemma named_or a f g : named a f || named a g = true -> a = lit f \/ a = lit g.
Proof. intros [H|H]%orb_true_iff; apply named_eq in H; auto. Qed.

(** Case analysis on the flag of a step that takes a value. *)
Ltac flag_cases Hs :=
  unfold value_flag in Hs;
  repeat match type of Hs with
         | (if ?b then _ else _) = Some _ => destruct b eqn:?
         end;
  try discriminate; injection Hs as <-.

(** A leaf of the case analysis: the step leaves the field alone, or its
    flag is one that does not occur. *)
Ltac by_flag a Ho :=
  first
    [ exact Ho
    | match goal with
      | E : named a _ || named a _ = true |- _ =>
          apply named_or in E as [E|E]; subst a; done
      | E : named a _ = true |- _ => apply named_eq in E; subst a; done
      end ].

(** X15. An option keeps its default unless an argument names it: without
    the token --max-files the file cap is 60, without --max-chars the
    character cap is 4000, without the tokens of the prompt, the model, the
    temperature or the output file these are undefined, and the directory is
    the current one unless --dir or -d occurs or some argument does not begin
    with a dash. *)
Theorem parseArgs_keeps_defaults argv opts :
  parse argv = Parsed opts ->
  (lit "--max-files" ∉ drop 2 argv -> opt_maxFiles opts = Integer 60)
  /\ (lit "--max-chars" ∉ drop 2 argv ->
      opt_maxCharsPerFile opts = Integer 4000)
  /\ (lit "--prompt" ∉ drop 2 argv -> lit "-p" ∉ drop 2 argv ->
      opt_prompt opts = None)
  /\ (lit "--model" ∉ drop 2 argv -> lit "-m" ∉ drop 2 argv ->
      opt_model opts = None)
  /\ (lit "--temperature" ∉ drop 2 argv -> lit "-t" ∉ drop 2 argv ->
      opt_temperature opts = None)
  /\ (lit "--out" ∉ drop 2 argv -> lit "-o" ∉ drop 2 argv ->
      opt_out opts = None)
  /\ (lit "--dir" ∉ drop 2 argv -> lit "-d" ∉ drop 2 argv ->
      Forall (fun a => startsWith a (lit "-") = true) (drop 2 argv) ->
      opt_dir opts = cwd).
Proof.
  unfold parseArgs. generalize (drop 2 argv). intros args Hp.
  split; [|split; [|split; [|split; [|split; [|split]]]]].
  - intros H.
    apply (parse_loop_preserves (fun o => opt_maxFiles o = Integer 60) args)
      with (o := default_options cwd) (o' := opts); try done.
    intros a set v o Ha Hs Ho. flag_cases Hs; by_flag a Ho.
  - intros H.
    apply (parse_loop_preserves
             (fun o => opt_maxCharsPerFile o = Integer 4000) args)
      with (o := default_options cwd) (o' := opts); try done.
    intros a set v o Ha Hs Ho. flag_cases Hs; by_flag a Ho.
  - intros H H'.
    apply (parse_loop_preserves (fun o => opt_prompt o = None) args)
      with (o := default_options cwd) (o' := opts); try done.
    intros a set v o Ha Hs Ho. flag_cases Hs; by_flag a Ho.
  - intros H H'.
    apply (parse_loop_preserves (fun o => opt_model o = None) args)
      with (o := default_options cwd) (o' := opts); try done.
    intros a set v o Ha Hs Ho. flag_cases Hs; by_flag a Ho.
  - intros H H'.
    apply (parse_loop_preserves (fun o => opt_temperature o = None) args)
      with (o := default_options cwd) (o' := opts); try done.
    intros a set v o Ha Hs Ho. flag_cases Hs; by_flag a Ho.
  - intros H H'.
    apply (parse_loop_preserves (fun o => opt_out o = None) args)
      with (o := default_options cwd) (o' := opts); try done.
    intros a set v o Ha Hs Ho. flag_cases Hs; by_flag a Ho.
  - intros H H' Hdash.
    apply (parse_loop_preserves (fun o => opt_dir o = cwd) args)
      with (o := default_options cwd) (o' := opts); try done.
    + intros a set v o Ha Hs Ho. flag_cases Hs; by_flag a Ho.
    + intros a o Ha _ Hd _. rewrite Forall_forall in Hdash.
      rewrite (Hdash a Ha) in Hd. discriminate.
Qed.

Lemma parse_loop_exit args o :
  loop args o = Exit0 -> exists a, a ∈ args /\ asks_help a = true.
Proof.
  revert o. induction args as [|a rest IH1 IH2] using args_ind; intros o Hp.
  { discriminate. }
  destruct (takes_value a) eqn:Hv.
  - apply value_flag_takes_value in Hv as [set Hs].
    destruct rest as [|v rest'].
    + rewrite (parse_loop_dangling a set) in Hp by assumption. discriminate.
    + rewrite (parse_loop_value a set) in Hp by assumption.
      destruct (IH2 v rest' eq_refl _ Hp) as (b & Hb & Hh).
      exists b. split; [by do 2 right|exact Hh].
  - destruct (asks_help a) eqn:Hh.
    { exists a. split; [left|exact Hh]. }
    rewrite parse_loop_plain in Hp by assumption.
    destruct (IH1 _ Hp) as (b & Hb & Hb'). exists b. split; [by right|exact Hb'].
Qed.

(** X16. [parseArgs] ends the process only for a request for help: if it
    exits, one of the arguments is --help or -h. Such an argument in the
    place of a flag always ends it, whatever follows; but right after a flag
    that takes a value it is taken as that value and the parsing goes on. *)
Theorem parseArgs_exits_only_for_help :
  (forall argv,
     parse argv = Exit0 ->
     lit "--help" ∈ drop 2 argv \/ lit "-h" ∈ drop 2 argv)
  /\ (forall pre h rest o,
        Forall (fun a => takes_value a = false) pre -> asks_help h = true ->
        loop (pre ++ h :: rest) o = Exit0)
  /\ (forall f h rest o,
        takes_value f = true -> asks_help h = true ->
        exists set,
          value_flag Number resolve f = Some set
          /\ loop (f :: h :: rest) o = loop rest (set (Some h) o)).
Proof.
  split; [|split].
  - intros argv Hp. unfold parseArgs in Hp.
    apply parse_loop_exit in Hp as (a & Ha & Hh).
    unfold asks_help in Hh. apply named_or in Hh as [<-|<-]; auto.
  - intros pre h rest o Hpre Hh. revert o.
    induction Hpre as [|a pre Ha _ IH]; intros o.
    + by apply parse_loop_help.
    + simpl app. destruct (asks_help a) eqn:Hah.
      * by apply parse_loop_help.
      * rewrite parse_loop_plain by assumption. apply IH.
  - intros f h rest o Hf Hh.
    apply value_flag_takes_value in Hf as [set Hs].
    exists set. split; [exact Hs|]. by apply parse_loop_value.
Qed.

(** X17. Arguments are read as a sequence of whole items: after arguments
    in which every flag has its value, the loop goes on with what follows
    from the options read so far. So the last --max-files with a value
    decides the file cap, being [Number] of that value, and a --max-files
    left without a value gives [Number(undefined)]. *)
Theorem parseArgs_reads_items_in_sequence pre :
  aligned pre = true ->
  (forall post o,
     loop (pre ++ post) o
     = match loop pre o with
       | Parsed o1 => loop post o1
       | Exit0 => Exit0
       end)
  /\ (forall v o o1,
        loop pre o = Parsed o1 ->
        exists o2,
          loop (pre ++ [lit "--max-files"; v]) o = Parsed o2
          /\ opt_maxFiles o2 = Number (Some v)
          /\ opt_maxCharsPerFile o2 = opt_maxCharsPerFile o1
          /\ opt_dir o2 = opt_dir o1)
  /\ (forall o o1,
        loop pre o = Parsed o1 ->
        exists o2,
          loop (pre ++ [lit "--max-files"]) o = Parsed o2
          /\ opt_maxFiles o2 = Number None).
Proof.
  intros Hal.
  assert (Hseq : forall post o,
            loop (pre ++ post) o
            = match loop pre o with
              | Parsed o1 => loop post o1
              | Exit0 => Exit0
              end).
  { intros post. revert Hal.
    induction pre as [|a rest IH1 IH2] using args_ind; intros Hal o.
    { reflexivity. }
    simpl in Hal. destruct (takes_value a) eqn:Hv.
    - apply value_flag_takes_value in Hv as [set Hs].
      destruct rest as [|v rest']; [discriminate|]. simpl app.
      rewrite !(parse_loop_value a set) by assumption.
      by apply (IH2 v rest' eq_refl).
    - simpl app. destruct (asks_help a) eqn:Hh.
      { by rewrite !parse_loop_help. }
      rewrite !parse_loop_plain by assumption. by apply IH1. }
  split; [exact Hseq|]. split.
  - intros v o o1 Hp. rewrite Hseq, Hp. eexists. split; [reflexivity|].
    by repeat split.
  - intros o o1 Hp. rewrite Hseq, Hp. eexists. split; [reflexivity|].
    reflexivity.
Qed.

End ParseArgsFacts.

Lemma parseArgs_keeps_defaults_witness :
  opt_maxFiles
    {| opt_dir := lit "/cwd/src"; opt_prompt := Some (lit "--help");
       opt_model := None; opt_temperature := None;
       opt_maxFiles := Integer 60; opt_maxCharsPerFile := Integer 5;
       opt_out := None |}
  = Integer 60.
Proof.
  destruct (parseArgs_keeps_defaults Number_5 resolve_cwd (lit "/cwd")
              (map lit ["bun"; "cli.ts"; "--max-chars"; "5"; "-p"; "--help";
                        "src"; "-x"]%string)
              {| opt_dir := lit "/cwd/src"; opt_prompt := Some (lit "--help");
                 opt_model := None; opt_temperature := None;
                 opt_maxFiles := Integer 60; opt_maxCharsPerFile := Integer 5;
                 opt_out := None |}) as [H _].
  - vm_compute. reflexivity.
  - apply H.
    apply (bool_decide_eq_false_1
             (lit "--max-files"
              ∈ drop 2 (map lit ["bun"; "cli.ts"; "--max-chars"; "5"; "-p";
                                 "--help"; "src"; "-x"]%string))).
    reflexivity.
Defined.

Lemma parseArgs_reads_items_in_sequence_witness :
  exists o2,
    parse_loop Number_5 resolve_cwd
      (map lit ["-p"; "speed"; "--max-files"; "9"]%string
       ++ [lit "--max-files"; lit "5"])
      (default_options (lit "/cwd"))
    = Parsed o2
    /\ opt_maxFiles o2 = Integer 5.
Proof.
  destruct (parseArgs_reads_items_in_sequence Number_5 resolve_cwd
              (map lit ["-p"; "speed"; "--max-files"; "9"]%string))
    as (_ & H & _); [reflexivity|].
  destruct (H (lit "5") (default_options (lit "/cwd"))
              {| opt_dir := lit "/cwd"; opt_prompt := Some (lit "speed");
                 opt_model := None; opt_temperature := None;
                 opt_maxFiles := NaN; opt_maxCharsPerFile := Integer 4000;
                 opt_out := None |}) as (o2 & Hp & Hm & _).
  - vm_compute. reflexivity.
  - exists o2. split; [exact Hp|]. rewrite Hm. reflexivity.
Defined.

(** ** The markers of a block *)

Lemma split_at_first (x x' y y' : jsstring) (c : N) :
  c ∉ x -> c ∉ x' -> x ++ c :: y = x' ++ c :: y' -> x = x' /\ y = y'.
Proof.
  revert x'. induction x as [|u x IH]; intros x' Hx Hx' Heq.
  - destruct x' as [|u' x']; simpl in Heq.
    + by injection Heq as ->.
    + injection Heq as <- _. exfalso. apply Hx'. left.
  - apply not_elem_of_cons in Hx as [Hu Hx].
    destruct x' as [|u' x']; simpl in Heq.
    + injection Heq as -> _. done.
    + injection Heq as <- Heq. apply not_elem_of_cons in Hx' as [_ Hx'].
      destruct (IH x' Hx Hx' Heq) as [-> ->]. done.
Qed.

Lemma marker_no_newline (rel : jsstring) :
  newline ∉ rel -> newline ∉ lit "--- BEGIN FILE: " ++ rel ++ lit " ---".
Proof.
  intros Hr Hin. apply elem_of_app in Hin as [Hin|Hin].
  - revert Hin.
    apply (bool_decide_eq_false_1 (newline ∈ lit "--- BEGIN FILE: ")).
    reflexivity.
  - apply elem_of_app in Hin as [Hin|Hin]; [done|]. revert Hin.
    apply (bool_decide_eq_false_1 (newline ∈ lit " ---")). reflexivity.
Qed.

(** X18. A block can be read back: when the relative paths hold no
    newline, two blocks that are the same string have the same path in their
    markers and the same text. *)
Theorem block_determines_its_excerpt rel sample rel' sample' :
  newline ∉ rel -> newline ∉ rel' ->
  block rel sample = block rel' sample' ->
  rel = rel' /\ sample = sample'.
Proof.
  intros Hr Hr' Heq. unfold block in Heq.
  apply app_inv_head in Heq.
  assert (Hb : forall r s : jsstring,
            lit "--- BEGIN FILE: " ++ r ++ lit " ---" ++ [newline] ++ s
            ++ [newline] ++ lit "--- END FILE: " ++ r ++ lit " ---"
            = (lit "--- BEGIN FILE: " ++ r ++ lit " ---")
              ++ newline :: (s ++ [newline] ++ lit "--- END FILE: " ++ r
                             ++ lit " ---")).
  { intros r s. by rewrite <- !app_assoc. }
  rewrite !Hb in Heq.
  apply split_at_first in Heq as [H1 H2]; try by apply marker_no_newline.
  apply app_inv_head, app_inv_tail in H1. subst rel'.
  split; [reflexivity|]. by apply app_inv_tail in H2.
Qed.

Lemma block_determines_its_excerpt_witness :
  lit "a.txt" = lit "a.txt" /\ lit "hello" = lit "hello".
Proof.
  apply (block_determines_its_excerpt (lit "a.txt") (lit "hello")
           (lit "a.txt") (lit "hello")).
  - apply (bool_decide_eq_false_1 (newline ∈ lit "a.txt")). reflexivity.
  - apply (bool_decide_eq_false_1 (newline ∈ lit "a.txt")). reflexivity.
  - reflexivity.
Defined.

(** ** The relative paths of a summary *)

Lemma resolved_cons root : resolved root -> exists t, root = slash :: t.
Proof. intros [->|(segs & _ & _ & ->)]; by eexists. Qed.

Lemma foldl_join_names root names :
  resolved root -> Forall plain_name names -> names <> [] ->
  foldl join root names
  = (if bool_decide (root = [slash]) then [slash] else root ++ [slash])
    ++ JS.join [slash] names.
Proof.
  intros Hroot. induction names as [|n l IH] using rev_ind; [done|].
  intros Hn _. apply Forall_app in Hn as [Hl Hname].
  rewrite Forall_singleton in Hname. rewrite foldl_app. simpl.
  destruct (foldl_join_resolved root l Hroot Hl) as [Hres _].
  destruct (join_resolved _ n Hres Hname) as [-> _].
  destruct l as [|n0 l0].
  - simpl. destruct (bool_decide (root = [slash])) eqn:E; [reflexivity|].
    by rewrite <- app_assoc.
  - rewrite IH by done. rewrite join_snoc by done.
    destruct (join_plain_cons (n0 :: l0) ltac:(done) Hl) as (c & t & ->).
    destruct (resolved_cons root Hroot) as [r ->].
    rewrite bool_decide_eq_false_2;
      [by rewrite <- !app_assoc|].
    intros H. apply (f_equal (@List.length N)) in H.
    destruct (bool_decide (slash :: r = [slash]));
      rewrite ?length_app in H; simpl in H; rewrite ?length_app in H;
      simpl in H; lia.
Qed.

Lemma segments_of_join names :
  names <> [] -> Forall plain_name names ->
  segments (JS.join [slash] names) = names.
Proof.
  intros Hne Hp. unfold segments. rewrite split_on_join by assumption.
  induction Hp as [|n names (Hn & _) _ IH]; [done|].
  rewrite filter_cons_True by done. f_equal.
  destruct names as [|n' names]; [reflexivity|]. by apply IH.
Qed.

(** X19. Below a resolved root, with plain entry names, the path in the
    markers of every excerpt is the chain of entry names from the root to the
    file, joined by slashes: it does not begin with a separator, its segments
    are those names, and none of them is in the ignore set. This holds when
    the root is the file-system root or does not end in a backslash. *)
Theorem marker_paths_are_entry_names fs dir maxFiles fuel files file :
  resolved dir -> plain_names fs ->
  dir = [slash] \/ endsWith dir [backslash] = false ->
  walk fs maxFiles fuel dir = Some files -> file ∈ files ->
  exists names,
    names <> []
    /\ relativePath dir file = JS.join [slash] names
    /\ segments (relativePath dir file) = names
    /\ Forall (fun n => has DEFAULT_IGNORES n = false) names
    /\ Forall plain_name names.
Proof.
  intros Hres Hplain Hback Hw Hin. unfold walk in Hw.
  destruct (walk_events fs maxFiles fuel dir) as [evs|] eqn:He; [|discriminate].
  injection Hw as <-. apply walk_events_reached in He as [_ Hy].
  destruct (yielded_from_extends fs dir file (Hy file Hin))
    as (names & name & Hext & Hign & Hsegs).
  destruct (Hsegs Hres Hplain) as [Hnames _]. unfold extends in Hext.
  assert (Hne : names ++ [name] <> []) by (by destruct names).
  exists (names ++ [name]). split; [exact Hne|].
  assert (Hrel : relativePath dir file = JS.join [slash] (names ++ [name])).
  { rewrite Hext, foldl_join_names by assumption.
    destruct (decide (dir = [slash])) as [->|Hd].
    - rewrite bool_decide_eq_true_2 by done.
      by rewrite relativePath_app.
    - rewrite bool_decide_eq_false_2 by done. rewrite <- app_assoc.
      rewrite relativePath_app, (resolved_no_trailing dir Hres Hd).
      destruct Hback as [Hb|Hb]; [done|by rewrite Hb]. }
  split; [exact Hrel|]. split; [|by split].
  rewrite Hrel. by apply segments_of_join.
Qed.

Lemma marker_paths_are_entry_names_witness :
  exists names,
    names <> []
    /\ relativePath (lit "/srv/build") (lit "/srv/build/main.ts")
       = JS.join [slash] names
    /\ segments (relativePath (lit "/srv/build") (lit "/srv/build/main.ts"))
       = names
    /\ Forall (fun n => has DEFAULT_IGNORES n = false) names
    /\ Forall plain_name names.
Proof.
  apply (marker_paths_are_entry_names build_fs (lit "/srv/build") 10 2
           [lit "/srv/build/main.ts"]).
  - exact build_root_resolved.
  - exact build_fs_plain.
  - right. vm_compute. reflexivity.
  - vm_compute. reflexivity.
  - left.
Defined.

(** ** The lines of the returned summary *)

Lemma end_marker_no_newline (rel : jsstring) :
  newline ∉ rel -> newline ∉ lit "--- END FILE: " ++ rel ++ lit " ---".
Proof.
  intros Hr Hin. apply elem_of_app in Hin as [Hin|Hin].
  - revert Hin.
    apply (bool_decide_eq_false_1 (newline ∈ lit "--- END FILE: ")).
    reflexivity.
  - apply elem_of_app in Hin as [Hin|Hin]; [done|]. revert Hin.
    apply (bool_decide_eq_false_1 (newline ∈ lit " ---")). reflexivity.
Qed.

Lemma header_no_newline (dir : jsstring) :
  newline ∉ dir -> newline ∉ header dir.
Proof.
  intros Hd Hin. unfold header in Hin. apply elem_of_app in Hin as [Hin|Hin]; [|done].
  revert Hin. apply (bool_decide_eq_false_1 (newline ∈ lit "Root: ")).
  reflexivity.
Qed.

Lemma sentinel_line : lines sentinel = [sentinel].
Proof. vm_compute. reflexivity. Qed.

(** A part after the first, as it stands in the joined string. *)
Lemma joined_block dir (e : jsstring * jsstring) :
  [newline] ++ excerpt_block dir e
  = newline :: newline
    :: (lit "--- BEGIN FILE: " ++ relativePath dir e.1 ++ lit " ---")
    ++ newline :: e.2
    ++ newline :: (lit "--- END FILE: " ++ relativePath dir e.1 ++ lit " ---").
Proof.
  unfold excerpt_block, block. rewrite <- !app_assoc. reflexivity.
Qed.

(** The lines of a string that ends in blocks, whatever the paths and the
    texts hold: each block gives an empty line, the lines of its begin
    marker, the lines of its text and the lines of its end marker. *)
Lemma lines_of_joined_blocks dir (p : jsstring)
    (ex : list (jsstring * jsstring)) :
  lines (p ++ concat (map (fun e => [newline] ++ excerpt_block dir e) ex))
  = lines p
    ++ concat
         (map (fun e =>
                 [[]]
                 ++ lines (lit "--- BEGIN FILE: " ++ relativePath dir e.1
                           ++ lit " ---")
                 ++ lines e.2
                 ++ lines (lit "--- END FILE: " ++ relativePath dir e.1
                           ++ lit " ---"))
            ex).
Proof.
  revert p. induction ex as [|e ex IH]; intros p.
  { simpl. by rewrite !app_nil_r. }
  change (concat (map (fun e0 => [newline] ++ excerpt_block dir e0) (e :: ex)))
    with (([newline] ++ excerpt_block dir e)
          ++ concat (map (fun e0 => [newline] ++ excerpt_block dir e0) ex)).
  rewrite (app_assoc p ([newline] ++ excerpt_block dir e)).
  rewrite IH. cbn [map concat]. rewrite (app_assoc (lines p)). f_equal.
  rewrite joined_block. unfold lines.
  rewrite split_on_app.
  change (newline :: (lit "--- BEGIN FILE: " ++ relativePath dir e.1 ++ lit " ---")
          ++ newline :: e.2
          ++ newline :: lit "--- END FILE: " ++ relativePath dir e.1 ++ lit " ---")
    with ([] ++ newline
          :: (lit "--- BEGIN FILE: " ++ relativePath dir e.1 ++ lit " ---")
          ++ newline :: e.2
          ++ newline :: lit "--- END FILE: " ++ relativePath dir e.1 ++ lit " ---").
  rewrite !split_on_app. reflexivity.
Qed.

(** The lines of a string that ends in blocks: each block gives an empty
    line, its begin marker, the lines of its text and its end marker. *)
Lemma lines_of_blocks dir (p : jsstring) (ex : list (jsstring * jsstring)) :
  (forall e, e ∈ ex -> newline ∉ relativePath dir e.1) ->
  lines (p ++ concat (map (fun e => [newline] ++ excerpt_block dir e) ex))
  = lines p
    ++ concat
         (map (fun e =>
                 [[]; lit "--- BEGIN FILE: " ++ relativePath dir e.1 ++ lit " ---"]
                 ++ lines e.2
                 ++ [lit "--- END FILE: " ++ relativePath dir e.1 ++ lit " ---"])
            ex).
Proof.
  revert p. induction ex as [|e ex IH]; intros p Hrel.
  { simpl. by rewrite !app_nil_r. }
  change (concat (map (fun e0 => [newline] ++ excerpt_block dir e0) (e :: ex)))
    with (([newline] ++ excerpt_block dir e)
          ++ concat (map (fun e0 => [newline] ++ excerpt_block dir e0) ex)).
  rewrite (app_assoc p ([newline] ++ excerpt_block dir e)).
  rewrite IH by (intros e' He'; apply Hrel; by right).
  cbn [map concat]. rewrite (app_assoc (lines p)). f_equal.
  assert (Hr : newline ∉ relativePath dir e.1) by (apply Hrel; left).
  rewrite joined_block. unfold lines.
  rewrite split_on_app.
  change (newline :: (lit "--- BEGIN FILE: " ++ relativePath dir e.1 ++ lit " ---")
          ++ newline :: e.2
          ++ newline :: lit "--- END FILE: " ++ relativePath dir e.1 ++ lit " ---")
    with ([] ++ newline
          :: (lit "--- BEGIN FILE: " ++ relativePath dir e.1 ++ lit " ---")
          ++ newline :: e.2
          ++ newline :: lit "--- END FILE: " ++ relativePath dir e.1 ++ lit " ---").
  rewrite !split_on_app.
  rewrite (split_on_plain newline (lit "--- BEGIN FILE: " ++ _))
    by (by apply marker_no_newline).
  rewrite (split_on_plain newline (lit "--- END FILE: " ++ _))
    by (by apply end_marker_no_newline).
  reflexivity.
Qed.

(** The sentinel is a line of the blocks only inside the text of one. *)
Lemma sentinel_in_blocks dir (ex : list (jsstring * jsstring)) :
  sentinel ∈ concat
       (map (fun e =>
               [[]; lit "--- BEGIN FILE: " ++ relativePath dir e.1 ++ lit " ---"]
               ++ lines e.2
               ++ [lit "--- END FILE: " ++ relativePath dir e.1 ++ lit " ---"])
          ex)
  <-> exists e, e ∈ ex /\ sentinel ∈ lines e.2.
Proof.
  induction ex as [|e ex IH].
  { split; [intros H|intros (e & H & _)]; by apply elem_of_nil in H. }
  cbn [map concat]. rewrite elem_of_app, IH. split.
  - intros [H|(e' & He' & Hs)].
    + apply elem_of_app in H as [H|H].
      * apply elem_of_cons in H as [H|H]; [discriminate|].
        apply elem_of_cons in H as [H|H]; [discriminate|].
        by apply elem_of_nil in H.
      * apply elem_of_app in H as [H|H].
        -- exists e. split; [left|exact H].
        -- apply elem_of_cons in H as [H|H]; [discriminate|].
           by apply elem_of_nil in H.
    + exists e'. split; [by right|exact Hs].
  - intros (e' & He' & Hs). apply elem_of_cons in He' as [->|He'].
    + left. apply elem_of_app. right. apply elem_of_app. by left.
    + right. by exists e'.
Qed.

(** The joined string of the parts of a summary. *)
Lemma join_parts_of dir (ex : list (jsstring * jsstring)) :
  JS.join [newline] (parts_of dir ex)
  = header dir
    ++ (if bool_decide (ex = []) then [newline] ++ sentinel
        else concat (map (fun e => [newline] ++ excerpt_block dir e) ex)).
Proof.
  unfold parts_of. rewrite join_cons_concat. f_equal.
  destruct ex as [|e ex]; [reflexivity|].
  rewrite bool_decide_eq_false_2 by done. by rewrite app_nil_r, map_map.
Qed.

(** C6 (empty-result sentinel), on the returned string. A completed scan
    returns the header and, when no file is included, a newline and the
    sentinel and nothing else: the sentinel is its second and last line and
    there is no block. When a file is included it returns the header and, for
    each included file, a newline and its block, and nothing else: the
    sentinel is not among the parts joined. The lines of that summary are
    those of the header and, for each included file, an empty line and the
    lines of its begin marker, of its text and of its end marker. The text of
    the files is copied as it is, so the sentinel is a line of the summary
    whenever it is a line of the text of an included file; for a root and
    relative paths that hold no newline, it is one only then. No file is
    included when every walked file is sampled as absent (binary or
    unreadable), in particular when none is walked. On a finite tree the scan
    completes. *)
Theorem sentinel_only_when_nothing_included fs dir maxFiles maxChars :
  (forall fuel summary,
     summarizeRepo fs dir maxFiles maxChars fuel = Some summary ->
     exists files ex,
       walk fs maxFiles fuel dir = Some files
       /\ ex = excerpts fs maxFiles maxChars files 0
       /\ summarize_parts fs dir maxFiles maxChars fuel = Some (parts_of dir ex)
       /\ (ex = [] ->
           summarize_parts fs dir maxFiles maxChars fuel
           = Some [header dir; sentinel]
           /\ summary = header dir ++ [newline] ++ sentinel
           /\ lines summary = lines (header dir) ++ [sentinel])
       /\ (ex <> [] ->
           summarize_parts fs dir maxFiles maxChars fuel
           = Some (header dir :: map (excerpt_block dir) ex)
           /\ (sentinel ∉ header dir :: map (excerpt_block dir) ex)
           /\ summary
              = header dir
                ++ concat (map (fun e => [newline] ++ excerpt_block dir e) ex)
           /\ lines summary
              = lines (header dir)
                ++ concat
                     (map (fun e =>
                             [[]]
                             ++ lines (lit "--- BEGIN FILE: "
                                       ++ relativePath dir e.1 ++ lit " ---")
                             ++ lines e.2
                             ++ lines (lit "--- END FILE: "
                                       ++ relativePath dir e.1 ++ lit " ---"))
                        ex)
           /\ (forall e, e ∈ ex -> sentinel ∈ lines e.2 ->
                 sentinel ∈ lines summary)
           /\ (newline ∉ dir ->
               (forall e, e ∈ ex -> newline ∉ relativePath dir e.1) ->
               (sentinel ∈ lines summary
                <-> exists e, e ∈ ex /\ sentinel ∈ lines e.2)))
       /\ ((forall file, file ∈ files ->
              readSample fs file maxChars = None) -> ex = []))
  /\ (forall n, depth_le fs n dir = true ->
        exists fuel summary,
          summarizeRepo fs dir maxFiles maxChars fuel = Some summary).
Proof.
  split.
  - intros fuel summary Hs. unfold summarizeRepo in Hs.
    destruct (summarize_parts fs dir maxFiles maxChars fuel) as [parts|] eqn:Hp;
      [|discriminate].
    injection Hs as <-.
    apply scan_shape in Hp as (files & Hw & ->).
    exists files, (excerpts fs maxFiles maxChars files 0).
    split; [exact Hw|]. split; [reflexivity|]. split; [reflexivity|].
    rewrite join_parts_of. split; [|split].
    + intros He. rewrite He. split; [reflexivity|]. split; [reflexivity|].
      change (header dir ++ (if bool_decide ([] = []) then [newline] ++ sentinel
                             else concat (map (fun e => [newline] ++ excerpt_block dir e) [])))
        with (header dir ++ newline :: sentinel).
      unfold lines. rewrite split_on_app. f_equal; try exact sentinel_line.
    + intros Hne. unfold parts_of. rewrite !bool_decide_eq_false_2 by assumption.
      rewrite app_nil_r. split; [reflexivity|].
      split; [|split; [reflexivity|split; [|split]]].
      * intros Hin. apply elem_of_cons in Hin as [Hin|Hin].
        -- by apply sentinel_not_header in Hin.
        -- apply list_elem_of_fmap in Hin as (e & He & _).
           by apply sentinel_not_block in He.
      * apply lines_of_joined_blocks.
      * intros e He Hl. rewrite lines_of_joined_blocks.
        apply elem_of_app. right. clear Hne.
        induction He as [e ex|e e' ex He IH]; cbn [map concat];
          apply elem_of_app; [left|right; by apply IH].
        apply elem_of_app. right. apply elem_of_app. right.
        apply elem_of_app. by left.
      * intros Hd Hrel. rewrite lines_of_blocks by exact Hrel.
        unfold lines at 1. rewrite split_on_plain by (by apply header_no_newline).
        rewrite <- sentinel_in_blocks. rewrite elem_of_app. split.
        -- intros [H|H]; [|exact H].
           apply elem_of_cons in H as [H|H]; [by apply sentinel_not_header in H|].
           by apply elem_of_nil in H.
        -- intros H. by right.
    + intros Habsent.
      destruct (excerpts fs maxFiles maxChars files 0) as [|[f s] ex] eqn:He;
        [reflexivity|exfalso].
      destruct (excerpts_spec fs maxFiles maxChars files 0) as [Hex _].
      rewrite He in Hex. apply Forall_cons in Hex as [[Hin Hs] _].
      simpl in *. rewrite (Habsent _ Hin) in Hs. discriminate.
  - intros n Hd.
    destruct (scan_completes fs dir maxFiles maxChars n Hd)
      as (fuel & files & _ & _ & Hs).
    by eexists _, _.
Qed.

(** The theorem at the scenario of the specification: with a.txt included
    and no sentinel line in its text, the summary has no sentinel line. *)
Lemma sentinel_only_when_nothing_included_witness :
  summarizeRepo repo_fs (lit "/repo") 10 100 1
  = Some (header (lit "/repo") ++ [newline] ++ block (lit "a.txt") (lit "hello"))
  /\ sentinel ∉ lines (header (lit "/repo") ++ [newline]
                        ++ block (lit "a.txt") (lit "hello")).
Proof.
  assert (Hs : summarizeRepo repo_fs (lit "/repo") 10 100 1
               = Some (header (lit "/repo") ++ [newline]
                       ++ block (lit "a.txt") (lit "hello")))
    by (vm_compute; reflexivity).
  split; [exact Hs|].
  destruct (sentinel_only_when_nothing_included repo_fs (lit "/repo") 10 100)
    as (H & _).
  destruct (H 1%nat _ Hs) as (files & ex & Hw & Hex & _ & _ & Hinc & _).
  assert (Hw' : walk repo_fs 10 1 (lit "/repo")
                = Some [lit "/repo/a.txt"; lit "/repo/img.png"])
    by (vm_compute; reflexivity).
  rewrite Hw' in Hw. injection Hw as <-.
  assert (He : ex = [(lit "/repo/a.txt", lit "hello")])
    by (rewrite Hex; vm_compute; reflexivity).
  clear Hex. subst ex.
  destruct (Hinc ltac:(discriminate)) as (_ & _ & _ & _ & _ & Hiff).
  intros Hin. apply Hiff in Hin.
  - destruct Hin as (e & He & Hl). apply list_elem_of_singleton in He as ->.
    revert Hl. apply (bool_decide_eq_false_1 (sentinel ∈ _)).
    vm_compute. reflexivity.
  - apply (bool_decide_eq_false_1 (newline ∈ _)). vm_compute. reflexivity.
  - intros e He. apply list_elem_of_singleton in He as ->.
    apply (bool_decide_eq_false_1 (newline ∈ _)). vm_compute. reflexivity.
Defined.

(** C6 as stated does not hold: the only file of /s is note.txt, and its
    text is the sentinel line. The scan includes that file:
    the summary is the header and one block, so the sentinel part is not
    pushed; and yet the sentinel is a line of the summary returned, the
    fourth, between the markers of the block. *)
Lemma sentinel_line_with_a_file_included :
  walk note_fs 10 2 (lit "/s") = Some [lit "/s/note.txt"]
  /\ excerpts note_fs 10 100 [lit "/s/note.txt"] 0
     = [(lit "/s/note.txt", sentinel)]
  /\ summarize_parts note_fs (lit "/s") 10 100 2
     = Some [header (lit "/s"); block (lit "note.txt") sentinel]
  /\ exists summary,
       summarizeRepo note_fs (lit "/s") 10 100 2 = Some summary
       /\ lines summary
          = [lit "Root: /s"; []; lit "--- BEGIN FILE: note.txt ---";
             lit "No readable source files found.";
             lit "--- END FILE: note.txt ---"]
       /\ sentinel ∈ lines summary.
Proof.
  split; [vm_compute; reflexivity|]. split; [vm_compute; reflexivity|].
  split; [vm_compute; reflexivity|].
  eexists. split; [vm_compute; reflexivity|]. split; [vm_compute; reflexivity|].
  apply (bool_decide_eq_true_1 (sentinel ∈ _)). vm_compute. reflexivity.
Qed.

(** ** The relative paths in the returned summary *)







(** Outside the roots [main] passes, the unit removed after the root need
    not be a separator: below the relative root . the entry .eslintrc is
    yielded under its bare name, which starts with the root, and the path in
    its markers loses two characters. *)
Example relative_root_drops_a_character :
  walk dot_fs 10 2 (lit ".") = Some [lit ".eslintrc"]
  /\ summarize_parts dot_fs (lit ".") 10 100 2
     = Some [header (lit "."); block (lit "slintrc") (lit "{}")].
Proof. split; vm_compute; reflexivity. Qed.
